(** * A Redis key-value gateway: connection cache, handlers and request pipeline

    Shallow embedding of [api/main.py] and [api/libs/apikey_manager.py].
    Python functions that touch the module-level dictionary
    [redis_connections] or talk to the Redis server become computations in a
    state-and-exception monad over [world]; Python exceptions are values of
    [exn].  The Redis server itself is outside the repository: it is modelled
    by a table of entries and by a schedule [net_at] that fixes, for every
    round trip, whether the server answers or the client library raises. *)

From stdpp Require Import gmap strings list pretty.

Local Open Scope Z_scope.

(** ** Python exceptions *)

(** [Str e] stands for [str(e)], the text Python derives from an exception;
    [Text s] is a string literal. *)
Inductive exn : Type :=
| ValueError (msg : string)
| KeyError
| AttributeError
| ConnectionError                   (* redis.ConnectionError *)
| TimeoutError                      (* redis.TimeoutError *)
| ResponseError                     (* any other redis.RedisError *)
| IntegrityError                    (* sqlite3.IntegrityError *)
| Exception (msg : string) (cause : exn)          (* raise Exception(msg) from cause *)
| HTTPException (status_code : Z) (detail : detail)
with detail : Type :=
| Text (s : string)
| Str (e : exn).

Inductive result (A : Type) : Type :=
| Return (a : A)
| Raise (e : exn).
Arguments Return {A} a.
Arguments Raise {A} e.

(** ** The Redis server and the client objects *)

(** What happens to one round trip to the server. *)
Inductive net : Type :=
| Pong        (* served; a PING is answered PONG *)
| NoPong      (* served; a PING gets another answer, [ping()] is falsy *)
| Refused     (* redis.ConnectionError *)
| TimedOut    (* redis.TimeoutError *)
| Rejected.   (* another redis error, outside the retried class *)

(** A [redis.Redis(host, port, password, decode_responses=True, db=...)]
    object: host, port and password come from the configuration and are the
    same for all of them, so an object is its identity and its database. *)
Record Redis : Type := mkRedis { obj_id : nat; db : Z }.

#[global] Instance Redis_eq_dec : EqDecision Redis.
Proof. solve_decision. Defined.

(** A stored string with its remaining time to live in seconds ([None]: the
    key does not expire).  Time does not pass in the model: an entry keeps
    the seconds it was stored with. *)
Record entry : Type := mkEntry { e_value : string; e_ttl : option nat }.

Inductive command : Type :=
| PING
| EXISTS (k : string)
| SET (k v : string) (ex : option Z)
| GET (k : string)
| TTL (k : string)
| DEL (k : string).

(** One round trip: the object used, the command, what the network did. *)
Inductive event : Type := Call (h : Redis) (c : command) (r : net).

Record world : Type := mkWorld {
  redis_connections : gmap Z Redis;      (* the module-level dict *)
  next_obj : nat;                        (* identity of the next object built *)
  clock : nat;                           (* round trips made so far *)
  store : gmap (Z * string) entry;       (* the server: (database, key) to entry *)
  trace : list event                     (* round trips, newest first *)
}.

Definition initial_world : world :=
  {| redis_connections := ∅; next_obj := 0%nat; clock := 0%nat;
     store := ∅; trace := [] |}.

(** ** State and exceptions *)

(** A Python function over mutable state [S]: it returns or raises, and
    leaves a state behind either way. *)
Definition ST (S A : Type) : Type := S → result A * S.

Definition ret {S A} (a : A) : ST S A := λ s, (Return a, s).
Definition raise {S A} (e : exn) : ST S A := λ s, (Raise e, s).
Definition bind {S A B} (m : ST S A) (f : A → ST S B) : ST S B :=
  λ s, match m s with
       | (Return a, s') => f a s'
       | (Raise e, s') => (Raise e, s')
       end.

Notation "'let*' x ':=' m 'in' f" := (bind m (λ x, f))
  (at level 10, x name, m at level 100, f at level 200, only parsing).
Notation "'do' m 'in' f" := (bind m (λ _, f))
  (at level 10, m at level 100, f at level 200, only parsing).

(** [try: m except <classes> as e: h e]; an exception outside [classes]
    propagates.  Changes made to the state before the raise are kept. *)
Definition try_except {S A} (m : ST S A) (classes : exn → bool) (h : exn → ST S A)
  : ST S A :=
  λ s, match m s with
       | (Return a, s') => (Return a, s')
       | (Raise e, s') => if classes e then h e s' else (Raise e, s')
       end.

(** [except Exception]: every class of [exn] derives from [Exception]. *)
Definition any_Exception (e : exn) : bool := true.

(** [except (redis.ConnectionError, redis.TimeoutError)]. *)
Definition connection_or_timeout (e : exn) : bool :=
  match e with
  | ConnectionError | TimeoutError => true
  | _ => false
  end.

(** Functions of [main.py] that only touch the connections and the server. *)
Abbreviation M := (ST world).

Definition get_connections : M (gmap Z Redis) := λ w, (Return (redis_connections w), w).

Definition set_connection (i : Z) (h : Redis) : M unit :=
  λ w, (Return tt,
        {| redis_connections := <[i := h]> (redis_connections w);
           next_obj := next_obj w; clock := clock w;
           store := store w; trace := trace w |}).

(** The constructor only builds the client object and its pool; no socket is
    opened before the first command is sent. *)
Definition new_Redis (db_index : Z) : M Redis :=
  λ w, (Return {| obj_id := next_obj w; db := db_index |},
        {| redis_connections := redis_connections w;
           next_obj := S (next_obj w); clock := clock w;
           store := store w; trace := trace w |}).

Definition with_store (f : gmap (Z * string) entry → gmap (Z * string) entry) : M unit :=
  λ w, (Return tt,
        {| redis_connections := redis_connections w;
           next_obj := next_obj w; clock := clock w;
           store := f (store w); trace := trace w |}).

Definition get_store : M (gmap (Z * string) entry) := λ w, (Return (store w), w).

(** ** Request and response models *)

Record KeyValueInput : Type := mkInput {
  in_key : string;
  in_value : string;
  in_db_index : Z;             (* Field(0, ge=0, le=15) *)
  in_ttl : option Z            (* Field(None, ge=1) *)
}.

(** The field constraints of [KeyValueInput]. *)
Definition KeyValueInput_valid (data : KeyValueInput) : bool :=
  (0 <=? in_db_index data) && (in_db_index data <=? 15) &&
  match in_ttl data with
  | None => true
  | Some t => 1 <=? t
  end.

Record KeyValueOutput : Type := mkOutput {
  out_key : string;
  out_value : option string;
  out_ttl : option Z;
  out_db_index : Z;
  out_message : string
}.

(** [Union[int, str]]. *)
Inductive int_or_str : Type :=
| Int (n : Z)
| Chars (s : string).

Record TTLResponse : Type := mkTTL {
  ttl_key : string;
  ttl_ttl : int_or_str;
  ttl_db_index : Z
}.

(** Python truth values of an [int] and of an [Optional[int]]. *)
Definition truthy (n : Z) : bool := negb (n =? 0).

Definition truthy_opt (o : option Z) : bool :=
  match o with
  | None => false
  | Some n => truthy n
  end.

(** The largest signed 64-bit integer, and the clock of the server in
    milliseconds since the epoch; the model keeps the clock where it is
    (4 November 2026, 00:00 UTC). *)
Definition LLONG_MAX : Z := 9223372036854775807.
Definition server_now_ms : Z := 1793750400000.

(** The server takes [EX t] when [t] is positive and the deadline, the
    clock plus [t] seconds, in milliseconds, is at most [LLONG_MAX]. *)
Definition expire_time_ok (t : Z) : bool :=
  (0 <? t) && (t * 1000 <=? LLONG_MAX - server_now_ms).

Section Gateway.

(** The outcome of the n-th round trip. *)
Variable net_at : nat → net.

Definition roundtrip (h : Redis) (c : command) : M net :=
  λ w, let r := net_at (clock w) in
       (Return r,
        {| redis_connections := redis_connections w;
           next_obj := next_obj w; clock := S (clock w);
           store := store w; trace := Call h c r :: trace w |}).

(** Send a command; when it is served, [served pong] computes the reply. *)
Definition send {A} (h : Redis) (c : command) (served : bool → M A) : M A :=
  let* r := roundtrip h c in
  match r with
  | Pong => served true
  | NoPong => served false
  | Refused => raise ConnectionError
  | TimedOut => raise TimeoutError
  | Rejected => raise ResponseError
  end.

Definition ping (h : Redis) : M bool := send h PING (λ pong, ret pong).

Definition exists_ (h : Redis) (k : string) : M Z :=
  send h (EXISTS k) (λ _,
    let* s := get_store in
    ret (match s !! (db h, k) with Some _ => 1 | None => 0 end)).

(** [SET k v] drops the expiry of the key, [SET k v EX t] sets it; the server
    refuses an expiry that is not positive or whose deadline does not fit
    in 64 bits ("invalid expire time in set"). *)
Definition set_ (h : Redis) (k v : string) (ex : option Z) : M bool :=
  send h (SET k v ex) (λ _,
    match ex with
    | None => do with_store (<[(db h, k) := mkEntry v None]>) in ret true
    | Some t =>
        if expire_time_ok t
        then do with_store (<[(db h, k) := mkEntry v (Some (Z.to_nat t))]>) in ret true
        else raise ResponseError
    end).

Definition get_ (h : Redis) (k : string) : M (option string) :=
  send h (GET k) (λ _, let* s := get_store in ret (e_value <$> s !! (db h, k))).

(** [TTL k]: -2 when the key is missing, -1 when it has no expiry. *)
Definition ttl_ (h : Redis) (k : string) : M Z :=
  send h (TTL k) (λ _,
    let* s := get_store in
    ret (match s !! (db h, k) with
         | None => -2
         | Some e => match e_ttl e with None => -1 | Some t => Z.of_nat t end
         end)).

Definition delete_ (h : Redis) (k : string) : M Z :=
  send h (DEL k) (λ _,
    let* s := get_store in
    match s !! (db h, k) with
    | Some _ => do with_store (delete (db h, k)) in ret 1
    | None => ret 0
    end).

(** ** [validate_db_index] and [get_redis_connection] *)

Definition validate_db_index (db_index max_dbs : Z) : M unit :=
  if (db_index <? 0) || (db_index >? max_dbs)
  then raise (ValueError ("db_index must be an integer between 0 and "
                          +:+ pretty max_dbs +:+ "."))
  else ret tt.

(** The body of the [try] of one attempt. *)
Definition attempt (db_index : Z) : M (option Redis) :=
  let* conns := get_connections in
  let* stale := match conns !! db_index with
                | None => ret true
                | Some h => let* alive := ping h in ret (negb alive)
                end in
  do (if stale : bool
      then let* h := new_Redis db_index in set_connection db_index h
      else ret tt) in
  let* conns' := get_connections in
  match conns' !! db_index with
  | Some h => ret (Some h)
  | None => raise KeyError
  end.

(** [for attempt in range(max_retries)]: [i] is the loop variable, [left]
    the number of iterations still to run.  A loop that ends without
    returning falls off the function, which then returns [None]. *)
Fixpoint attempts (db_index : Z) (max_retries : nat) (i left : nat) : M (option Redis) :=
  match left with
  | O => ret None
  | S left' =>
      try_except (attempt db_index) connection_or_timeout
        (λ e, if Z.of_nat i =? Z.of_nat max_retries - 1
              then raise (Exception ("Failed to connect to Redis on db_index "
                                     +:+ pretty db_index +:+ " after "
                                     +:+ pretty (Z.of_nat max_retries) +:+ " attempts.") e)
              else attempts db_index max_retries (S i) left')
  end.

Definition get_redis_connection (db_index : Z) (max_retries : nat) (max_dbs : Z)
  : M (option Redis) :=
  do validate_db_index db_index max_dbs in
  attempts db_index max_retries 0%nat max_retries.

(** [get_redis_connection] with [max_retries] as the Python int it is:
    [range(max_retries)] runs [max_retries] times, and not at all when
    [max_retries] is negative; when it runs, [Z.to_nat] loses nothing. *)
Definition get_redis_connection_int (db_index max_retries max_dbs : Z)
  : M (option Redis) :=
  get_redis_connection db_index (Z.to_nat max_retries) max_dbs.

(** A method call on what [get_redis_connection] returned; on [None] it
    raises [AttributeError]. *)
Definition method {A} (r : option Redis) (f : Redis → M A) : M A :=
  match r with
  | Some h => f h
  | None => raise AttributeError
  end.

(** ** The five handlers

    Each body is one [try] whose [except Exception as e] re-raises
    [HTTPException(status_code=500, detail=str(e))]. *)

Definition internal_error {A} (e : exn) : M A := raise (HTTPException 500 (Str e)).

Definition create_key (data : KeyValueInput) : M KeyValueOutput :=
  try_except
    (let* r := get_redis_connection (in_db_index data) 3 15 in
     let* found := method r (λ h, exists_ h (in_key data)) in
     if truthy found
     then raise (HTTPException 400 (Text "Key already exists"))
     else
       do (if truthy_opt (in_ttl data)
           then method r (λ h, set_ h (in_key data) (in_value data) (in_ttl data))
           else method r (λ h, set_ h (in_key data) (in_value data) None)) in
       ret {| out_key := in_key data;
              out_value := Some (in_value data);
              out_ttl := in_ttl data;
              out_db_index := in_db_index data;
              out_message := "Key created successfully" |})
    any_Exception internal_error.

Definition update_key (data : KeyValueInput) : M KeyValueOutput :=
  try_except
    (let* r := get_redis_connection (in_db_index data) 3 15 in
     let* found := method r (λ h, exists_ h (in_key data)) in
     if negb (truthy found)
     then raise (HTTPException 404 (Text "Key not found"))
     else
       do (if truthy_opt (in_ttl data)
           then method r (λ h, set_ h (in_key data) (in_value data) (in_ttl data))
           else method r (λ h, set_ h (in_key data) (in_value data) None)) in
       ret {| out_key := in_key data;
              out_value := Some (in_value data);
              out_ttl := in_ttl data;
              out_db_index := in_db_index data;
              out_message := "Key updated successfully" |})
    any_Exception internal_error.

Definition get_key (key : string) (db_index : Z) : M KeyValueOutput :=
  try_except
    (let* r := get_redis_connection db_index 3 15 in
     let* found := method r (λ h, exists_ h key) in
     if negb (truthy found)
     then raise (HTTPException 404 (Text "Key not found"))
     else
       let* value := method r (λ h, get_ h key) in
       let* ttl := method r (λ h, ttl_ h key) in
       ret {| out_key := key;
              out_value := value;
              out_ttl := if ttl =? -1 then None else Some ttl;
              out_db_index := db_index;
              out_message := "Key retrieved successfully" |})
    any_Exception internal_error.

Definition delete_key (key : string) (db_index : Z) : M (list (string * string)) :=
  try_except
    (let* r := get_redis_connection db_index 3 15 in
     let* found := method r (λ h, exists_ h key) in
     if negb (truthy found)
     then raise (HTTPException 404 (Text "Key not found"))
     else
       do method r (λ h, delete_ h key) in
       ret [("message", "Key deleted successfully"); ("key", key)])
    any_Exception internal_error.

Definition get_ttl (key : string) (db_index : Z) : M TTLResponse :=
  try_except
    (let* r := get_redis_connection db_index 3 15 in
     let* ttl := method r (λ h, ttl_ h key) in
     if ttl =? -2
     then raise (HTTPException 404 (Text "Key not found"))
     else
       let ttl_value := if ttl =? -1 then Chars "No TTL set" else Int ttl in
       ret {| ttl_key := key; ttl_ttl := ttl_value; ttl_db_index := db_index |})
    any_Exception internal_error.

End Gateway.

(** ** The application: credential store, dependencies, middlewares *)

Inductive operation : Type :=
| Create (data : KeyValueInput)                           (* POST /create *)
| Update (data : KeyValueInput)                           (* PUT /update *)
| Get (key : string) (db_index : Z)                       (* GET /get *)
| Delete (key : string) (db_index : Z)                    (* DELETE /delete *)
| Ttl (key : string) (db_index : Z)                       (* GET /ttl *)
| AddApikey (api_key : string) (description : option string)   (* POST /add_apikey *)
| Metrics.                          (* GET /metrics, the path of the mount *)

(** A request that carries the [x-api-key] header; [now] is what
    [int(datetime.utcnow().timestamp())] reads while it is served. *)
Record Request : Type := mkRequest {
  client_host : string;
  x_api_key : string;
  now : Z;
  op : operation
}.

Definition path (request : Request) : string :=
  match op request with
  | Create _ => "/create"
  | Update _ => "/update"
  | Get _ _ => "/get"
  | Delete _ _ => "/delete"
  | Ttl _ _ => "/ttl"
  | AddApikey _ _ => "/add_apikey"
  | Metrics => "/metrics"
  end.

Definition method_of (request : Request) : string :=
  match op request with
  | Create _ | AddApikey _ _ => "POST"
  | Update _ => "PUT"
  | Get _ _ | Ttl _ _ | Metrics => "GET"
  | Delete _ _ => "DELETE"
  end.

Inductive content : Type :=
| KeyValue (o : KeyValueOutput)
| TtlOf (t : TTLResponse)
| Dict (fields : list (string * string))
| Detail (d : detail)                   (* {"detail": ...} of an HTTPException *)
| ValidationErrors                      (* the request model refused the body *)
| Redirect (location : string).         (* the router's redirect to that path *)

Record Response : Type := mkResponse { status_code_of : Z; body : content }.

(** The process: the [api_keys] table, the counters kept by the
    [fastapi_limiter] dependency (state [L] of that library), the
    [REQUEST_COUNT] increments (newest first) and the Redis side. *)
Record app (L : Type) : Type := mkApp {
  api_keys : list (string * option string);
  limiter : L;
  request_count : list (string * string * string);
  backend : world
}.
Arguments mkApp {L}.
Arguments api_keys {L}.
Arguments limiter {L}.
Arguments request_count {L}.
Arguments backend {L}.

Section Application.

Context {L : Type}.

(** [RateLimiter(times, seconds)] of [fastapi_limiter]: the dependency it
    builds, called once per request it guards. *)
Variable RateLimiter : Z → Z → Request → ST L unit.

(** [config["ADMIN_API_KEY"]]. *)
Variable ADMIN_API_KEY : string.

Variable net_at : nat → net.

Definition on_backend {A} (m : M A) : ST (app L) A :=
  λ a, let (r, w) := m (backend a) in
       (r, {| api_keys := api_keys a; limiter := limiter a;
              request_count := request_count a; backend := w |}).

Definition on_limiter {A} (m : ST L A) : ST (app L) A :=
  λ a, let (r, l) := m (limiter a) in
       (r, {| api_keys := api_keys a; limiter := l;
              request_count := request_count a; backend := backend a |}).

(** *** [apikey_manager.py] *)

(** [INSERT INTO api_keys (key, description)]: the column is [UNIQUE]. *)
Definition add_api_key (api_key : string) (description : option string) : ST (app L) unit :=
  λ a, if bool_decide (api_key ∈ (api_keys a).*1)
       then (Raise IntegrityError, a)
       else (Return tt,
             {| api_keys := api_keys a ++ [(api_key, description)];
                limiter := limiter a; request_count := request_count a;
                backend := backend a |}).

(** [SELECT 1 FROM api_keys WHERE key = ?] found a row. *)
Definition validate_api_key (api_key : string) : ST (app L) bool :=
  λ a, (Return (bool_decide (api_key ∈ (api_keys a).*1)), a).

Definition validate_api_key_dependency (x_api_key : string) : ST (app L) unit :=
  let* ok := validate_api_key x_api_key in
  if negb ok
  then raise (HTTPException 403 (Text "Invalid API Key"))
  else ret tt.

(** *** Routes *)

(** [dependencies=[Depends(validate_api_key_dependency),
    Depends(RateLimiter(times=10, seconds=5))]], solved in this order; the
    first one that raises ends the request. *)
Definition dependencies (request : Request) : ST (app L) unit :=
  do validate_api_key_dependency (x_api_key request) in
  on_limiter (RateLimiter 10 5 request).

Definition add_apikey (api_key : string) (description : option string)
    (x_api_key : string) : ST (app L) (list (string * string)) :=
  if negb (String.eqb x_api_key ADMIN_API_KEY)
  then raise (HTTPException 403 (Text "Unauthorized"))
  else
    try_except
      (do add_api_key api_key description in
       ret [("message", "API Key added successfully")])
      (λ e, match e with IntegrityError => true | _ => false end)
      (λ _, raise (HTTPException 400 (Text "API Key already exists"))).

(** The endpoint matched by the request, behind its dependencies; the body
    of [/create] and [/update] is checked against [KeyValueInput] once the
    dependencies have passed.  The metrics application is mounted under
    [/metrics]: a request for [/metrics] itself is redirected to
    [/metrics/], where the mounted application answers. *)
Definition endpoint (request : Request) : ST (app L) content :=
  match op request with
  | Create data =>
      do dependencies request in
      if KeyValueInput_valid data
      then let* o := on_backend (create_key net_at data) in ret (KeyValue o)
      else ret ValidationErrors
  | Update data =>
      do dependencies request in
      if KeyValueInput_valid data
      then let* o := on_backend (update_key net_at data) in ret (KeyValue o)
      else ret ValidationErrors
  | Get key db_index =>
      do dependencies request in
      let* o := on_backend (get_key net_at key db_index) in ret (KeyValue o)
  | Delete key db_index =>
      do dependencies request in
      let* o := on_backend (delete_key net_at key db_index) in ret (Dict o)
  | Ttl key db_index =>
      do dependencies request in
      let* o := on_backend (get_ttl net_at key db_index) in ret (TtlOf o)
  | AddApikey api_key description =>
      let* o := add_apikey api_key description (x_api_key request) in ret (Dict o)
  | Metrics => ret (Redirect "/metrics/")
  end.

(** The router with the framework's exception handler: an [HTTPException]
    becomes a response with its status; a refused body is answered 422, a
    redirect 307. *)
Definition router (request : Request) : ST (app L) Response :=
  λ a, match endpoint request a with
       | (Return ValidationErrors, a') => (Return (mkResponse 422 ValidationErrors), a')
       | (Return (Redirect l), a') => (Return (mkResponse 307 (Redirect l)), a')
       | (Return c, a') => (Return (mkResponse 200 c), a')
       | (Raise (HTTPException status d), a') => (Return (mkResponse status (Detail d)), a')
       | (Raise e, a') => (Raise e, a')
       end.

(** *** Middlewares *)

Definition inc_request_count (labels : string * string * string) : ST (app L) unit :=
  λ a, (Return tt,
        {| api_keys := api_keys a; limiter := limiter a;
           request_count := labels :: request_count a; backend := backend a |}).

Definition prometheus_middleware (request : Request)
    (call_next : Request → ST (app L) Response) : ST (app L) Response :=
  let endpoint := path request in
  let method := method_of request in
  let* response := call_next request in
  let status_code := status_code_of response in
  do inc_request_count (method, endpoint, pretty status_code) in
  ret response.

(** The local variables of [rate_limit_middleware] for a request that is
    not for [/metrics]. *)
Record rate_limit_locals : Type := mkLocals {
  window_start : Z;
  ip_key : string;
  global_key : string;
  global_limit : Z;
  ip_limit : Z
}.

Definition rate_limit_variables (request : Request) : rate_limit_locals :=
  let client_ip := client_host request in
  let key_prefix := "rate_limit" in
  let now := now request in
  let window_size := 60 in
  let window_start := now - (now `mod` window_size) in
  let ip_key := key_prefix +:+ ":ip:" +:+ client_ip +:+ ":" +:+ pretty window_start in
  let global_key := key_prefix +:+ ":global:" +:+ pretty window_start in
  let global_limit := 1000 in
  let ip_limit := if String.eqb client_ip "127.0.0.1" then 100 else 5 in
  {| window_start := window_start; ip_key := ip_key; global_key := global_key;
     global_limit := global_limit; ip_limit := ip_limit |}.

Definition rate_limit_middleware (request : Request)
    (call_next : Request → ST (app L) Response) : ST (app L) Response :=
  if String.eqb (path request) "/metrics"
  then call_next request
  else
    let locals := rate_limit_variables request in
    let* response := call_next request in
    ret response.

(** A middleware registered later wraps the ones registered before it:
    [rate_limit_middleware] is outermost, then [prometheus_middleware]. *)
Definition application (request : Request) : ST (app L) Response :=
  rate_limit_middleware request (λ request, prometheus_middleware request router).

End Application.

(** * Vocabulary of the statements *)

(** The world after a PING on [h] that the network treated as [r]. *)
Definition probed (h : Redis) (r : net) (w : world) : world :=
  {| redis_connections := redis_connections w; next_obj := next_obj w;
     clock := S (clock w); store := store w;
     trace := Call h PING r :: trace w |}.

(** The world after a new object for database [i] has been built and put
    into [redis_connections]. *)
Definition installed (i : Z) (w : world) : world :=
  {| redis_connections := <[i := mkRedis (next_obj w) i]> (redis_connections w);
     next_obj := S (next_obj w); clock := clock w;
     store := store w; trace := trace w |}.

(** The world after command [c] went out on [h] and the network did [r]. *)
Definition sent (h : Redis) (c : command) (r : net) (w : world) : world :=
  {| redis_connections := redis_connections w; next_obj := next_obj w;
     clock := S (clock w); store := store w;
     trace := Call h c r :: trace w |}.

(** The invariant of the cache: the object kept under index [i] was built
    for database [i], by a constructor call that has already happened. *)
Definition cache_ok (w : world) : Prop :=
  ∀ i h, redis_connections w !! i = Some h → db h = i ∧ (obj_id h < next_obj w)%nat.

(** The errors [get_redis_connection] retries on. *)
Definition transient (r : net) : bool :=
  match r with
  | Refused | TimedOut => true
  | _ => false
  end.

(** The command was served, whatever a PING would have been answered. *)
Definition served (r : net) : bool :=
  match r with
  | Pong | NoPong => true
  | _ => false
  end.

Definition is_ping (e : event) : bool :=
  match e with
  | Call _ PING _ => true
  | _ => false
  end.

Definition is_ttl (e : event) : bool :=
  match e with
  | Call _ (TTL _) _ => true
  | _ => false
  end.

(** ** Sample schedules and worlds *)

(** Every round trip is served. *)
Definition reachable : nat → net := λ _, Pong.

(** The first [n] round trips are refused, the later ones are served. *)
Definition outage (n : nat) : nat → net :=
  λ t, if (t <? n)%nat then Refused else Pong.

(** One object for database 0 is cached; nothing has been sent yet. *)
Definition warm_world : world :=
  {| redis_connections := {[ 0 := mkRedis 0 0 ]}; next_obj := 1%nat;
     clock := 0%nat; store := ∅; trace := [] |}.

(** Database 0 holds key [a] with 30 seconds to live. *)
Definition expiring_world : world :=
  {| redis_connections := ∅; next_obj := 0%nat; clock := 0%nat;
     store := {[ (0, "a") := mkEntry "1" (Some 30%nat) ]}; trace := [] |}.



(** The routes declared with the two dependencies. *)
Definition guarded (o : operation) : bool :=
  match o with
  | AddApikey _ _ | Metrics => false
  | _ => true
  end.

(** Serve requests one after the other and collect the status codes; an
    exception that no handler turned into a response is answered 500 by the
    server. *)
Fixpoint serve_all {S} (serve : Request → ST S Response) (requests : list Request)
    (s : S) : list Z * S :=
  match requests with
  | [] => ([], s)
  | request :: rest =>
      match serve request s with
      | (Return response, s') =>
          let (codes, s'') := serve_all serve rest s' in
          (status_code_of response :: codes, s'')
      | (Raise _, s') =>
          let (codes, s'') := serve_all serve rest s' in
          (500 :: codes, s'')
      end
  end.

(** A stand-in for the dependency of [fastapi_limiter], used in examples
    only: per client and path, a window that opens with the first request
    and lasts [seconds]; [times] requests are let through in a window, the
    others get 429.  State: client and path to (opening time, count). *)
Definition fixed_window (times seconds : Z) (request : Request)
  : ST (gmap (string * string) (Z * Z)) unit :=
  λ l, let k := (client_host request, path request) in
       match l !! k with
       | Some (opened, count) =>
           if now request <? opened + seconds
           then if times <? count + 1
                then (Raise (HTTPException 429 (Text "Too Many Requests")), l)
                else (Return tt, <[k := (opened, count + 1)]> l)
           else (Return tt, <[k := (now request, 1)]> l)
       | None => (Return tt, <[k := (now request, 1)]> l)
       end.

(** A process with one API key, fresh counters and [expiring_world]. *)
Definition sample_app : app (gmap (string * string) (Z * Z)) :=
  {| api_keys := [("secret", None)]; limiter := ∅; request_count := [];
     backend := expiring_world |}.

Definition sample_request (o : operation) : Request :=
  {| client_host := "10.0.0.1"; x_api_key := "secret"; now := 0; op := o |}.

Definition intruder_request (o : operation) : Request :=
  {| client_host := "10.0.0.1"; x_api_key := "guess"; now := 0; op := o |}.

(** Every PING is answered with something else than PONG. *)
Definition garbled : nat → net := λ _, NoPong.

(** Every round trip meets an error outside the retried class. *)
Definition rejecting : nat → net := λ _, Rejected.

(** Objects for databases 0 and 1 are cached. *)
Definition two_cached : world :=
  {| redis_connections := {[ 0 := mkRedis 0 0; 1 := mkRedis 1 1 ]};
     next_obj := 2%nat; clock := 0%nat; store := ∅; trace := [] |}.

(** ** Footprints of computations *)

(** Every run of [m] relates the world before to the world after by [R],
    whether it returns or raises. *)
Definition respects {A} (R : world → world → Prop) (m : M A) : Prop :=
  ∀ w r w', m w = (r, w') → R w w'.

(** The cache is as it was. *)
Definition same_cache (w w' : world) : Prop :=
  redis_connections w' = redis_connections w ∧ next_obj w' = next_obj w.

(** The cache invariant is kept. *)
Definition keeps_cache_ok (w w' : world) : Prop := cache_ok w → cache_ok w'.

(** The server stores what it stored. *)
Definition same_store (w w' : world) : Prop := store w' = store w.

(** At most [k] round trips were made. *)
Definition within (k : nat) (w w' : world) : Prop :=
  (clock w ≤ clock w' ≤ clock w + k)%nat.

(** The server stores what it stored, except perhaps under key [k] of
    database [i]. *)
Definition same_store_but (i : Z) (k : string) (w w' : world) : Prop :=
  ∀ j k', (j, k') ≠ (i, k) → store w' !! (j, k') = store w !! (j, k').

(** The server never refuses a round trip from the present one on. *)
Definition serving (net_at : nat → net) (w : world) : Prop :=
  ∀ t, (clock w ≤ t)%nat → served (net_at t) = true.

(** [sample_app] after ten requests for [/get] from 10.0.0.1 at second 0. *)
Definition exhausted_app : app (gmap (string * string) (Z * Z)) :=
  {| api_keys := [("secret", None)];
     limiter := {[ ("10.0.0.1", "/get") := (0, 10) ]};
     request_count := []; backend := expiring_world |}.



(** Unfold the monadic plumbing and the primitive state accessors. *)
Ltac monad :=
  cbv beta iota delta
    [bind ret raise try_except get_connections set_connection new_Redis
     with_store get_store roundtrip send ping method internal_error
     any_Exception];
  cbn [fst snd negb andb orb redis_connections next_obj clock store trace].

(** * The connection cache *)

Section Cache.

Variable net_at : nat → net.

Lemma attempt_cases (i : Z) (w : world) :
  attempt net_at i w =
  match redis_connections w !! i with
  | None => (Return (Some (mkRedis (next_obj w) i)), installed i w)
  | Some h0 =>
      match net_at (clock w) with
      | Pong => (Return (Some h0), probed h0 Pong w)
      | NoPong => (Return (Some (mkRedis (next_obj w) i)), installed i (probed h0 NoPong w))
      | Refused => (Raise ConnectionError, probed h0 Refused w)
      | TimedOut => (Raise TimeoutError, probed h0 TimedOut w)
      | Rejected => (Raise ResponseError, probed h0 Rejected w)
      end
  end.
Proof.
  unfold attempt. monad.
  destruct (redis_connections w !! i) as [h0|] eqn:Hc; monad.
  - destruct (net_at (clock w)) eqn:Hn; monad;
      rewrite ?Hc, ?lookup_insert_eq; monad; reflexivity.
  - rewrite lookup_insert_eq. reflexivity.
Qed.

(** What one run of the retry loop does, from attempt [k] with [left]
    iterations to go: it only sends PINGs, all to the object that was cached
    when it started, and ends in one of five ways. *)
Lemma attempts_spec (i : Z) (n : nat) :
  ∀ (left k : nat) (w : world) (r : result (option Redis)) (w' : world),
    (k + left = n)%nat →
    attempts net_at i n k left w = (r, w') →
    ∃ new : list event,
      trace w' = new ++ trace w ∧
      clock w' = (clock w + length new)%nat ∧
      store w' = store w ∧
      (length new ≤ left)%nat ∧
      (∀ e, e ∈ new →
         ∃ h0 r0, e = Call h0 PING r0 ∧ redis_connections w !! i = Some h0) ∧
      ((∃ h rest, r = Return (Some h) ∧ redis_connections w !! i = Some h ∧
                  new = Call h PING Pong :: rest ∧
                  redis_connections w' = redis_connections w ∧
                  next_obj w' = next_obj w)
       ∨ (r = Return (Some (mkRedis (next_obj w) i)) ∧
          redis_connections w' = <[i := mkRedis (next_obj w) i]> (redis_connections w) ∧
          next_obj w' = S (next_obj w) ∧
          (∀ h0, Call h0 PING Pong ∉ new))
       ∨ (redis_connections w' = redis_connections w ∧ next_obj w' = next_obj w ∧
          ((r = Return None ∧ left = 0%nat)
           ∨ (r = Raise ResponseError ∧ ∃ h0 rest, new = Call h0 PING Rejected :: rest)
           ∨ (∃ msg cause, r = Raise (Exception msg cause) ∧
                connection_or_timeout cause = true ∧
                length new = left ∧
                (∀ h0 r0, Call h0 PING r0 ∈ new → transient r0 = true))))).
Proof.
  induction left as [|left IH]; intros k w r w' Hk H; simpl in H.
  { inversion H; subst. exists [].
    split_and!; [done | simpl; lia | done | simpl; lia | | ].
    - intros e He. inversion He.
    - right; right. auto. }
  unfold try_except in H. rewrite attempt_cases in H.
  destruct (redis_connections w !! i) as [h0|] eqn:Hc.
  2:{ inversion H; subst. exists [].
      split_and!; [done | simpl; lia | done | simpl; lia | | ].
      - intros e He. inversion He.
      - right; left. split_and!; try done. intros h0 Hin. inversion Hin. }
  assert (Hone : ∀ r0 e, e ∈ [Call h0 PING r0] →
            ∃ h1 r1, e = Call h1 PING r1 ∧ Some h0 = Some h1).
  { intros r0 e He. apply list_elem_of_singleton in He. subst. eauto. }
  assert (Hretry : ∀ r0 cause, transient r0 = true → connection_or_timeout cause = true →
            (if Z.of_nat k =? Z.of_nat n - 1
             then (Raise (Exception
                     ("Failed to connect to Redis on db_index " +:+ pretty i +:+ " after "
                      +:+ pretty (Z.of_nat n) +:+ " attempts.") cause),
                   probed h0 r0 w)
             else attempts net_at i n (S k) left (probed h0 r0 w)) = (r, w') →
            ∃ new : list event,
              trace w' = new ++ trace w ∧
              clock w' = (clock w + length new)%nat ∧
              store w' = store w ∧
              (length new ≤ S left)%nat ∧
              (∀ e, e ∈ new → ∃ h1 r1, e = Call h1 PING r1 ∧ Some h0 = Some h1) ∧
              ((∃ h rest, r = Return (Some h) ∧ Some h0 = Some h ∧
                          new = Call h PING Pong :: rest ∧
                          redis_connections w' = redis_connections w ∧
                          next_obj w' = next_obj w)
               ∨ (r = Return (Some (mkRedis (next_obj w) i)) ∧
                  redis_connections w' = <[i := mkRedis (next_obj w) i]> (redis_connections w) ∧
                  next_obj w' = S (next_obj w) ∧
                  (∀ h1, Call h1 PING Pong ∉ new))
               ∨ (redis_connections w' = redis_connections w ∧ next_obj w' = next_obj w ∧
                  ((r = Return None ∧ S left = 0%nat)
                   ∨ (r = Raise ResponseError ∧ ∃ h1 rest, new = Call h1 PING Rejected :: rest)
                   ∨ (∃ msg c, r = Raise (Exception msg c) ∧
                        connection_or_timeout c = true ∧
                        length new = S left ∧
                        (∀ h1 r1, Call h1 PING r1 ∈ new → transient r1 = true)))))).
  { intros r0 cause Hr0 Hcause H'.
    destruct (Z.of_nat k =? Z.of_nat n - 1) eqn:Hlast.
    - inversion H'; subst. exists [Call h0 PING r0].
      split_and!; [done | simpl; lia | done | simpl; lia | by apply Hone | ].
      right; right. split_and!; try done. right; right.
      eexists _, cause. split_and!; try done.
      + simpl. apply Z.eqb_eq in Hlast. lia.
      + intros h1 r1 Hin. apply list_elem_of_singleton in Hin.
        inversion Hin; subst. done.
    - apply IH in H'; [|lia].
      destruct H' as (new & Ht & Hcl & Hst & Hlen & Hev & Hout).
      simpl in Ht, Hcl, Hst, Hev, Hout.
      exists (new ++ [Call h0 PING r0]). rewrite <- app_assoc, length_app. simpl.
      split_and!; [done | lia | done | lia | | ].
      + intros e He. apply elem_of_app in He as [He|He]; [|eauto].
        apply Hev in He. rewrite Hc in He. exact He.
      + destruct Hout as [(h & rest & -> & Hh & -> & Hr & Hno)
                         |[(-> & Hr & Hno & Hp)|(Hr & Hno & Hfail)]].
        * left. exists h, (rest ++ [Call h0 PING r0]). rewrite Hc in Hh. done.
        * right; left. split_and!; try done.
          intros h1 Hin. apply elem_of_app in Hin as [Hin|Hin]; [by eapply Hp|].
          apply list_elem_of_singleton in Hin. inversion Hin; subst. discriminate.
        * right; right. split_and!; try done.
          destruct Hfail as [(-> & ->)
                            |[(-> & h1 & rest & ->)|(msg & c & -> & Hc' & Hl & Htr)]].
          -- apply Z.eqb_neq in Hlast. lia.
          -- right; left. split; [done|]. by eexists _, (rest ++ _).
          -- right; right. exists msg, c. simpl.
             split_and!; [done | done | lia | ].
             intros h1 r1 Hin. apply elem_of_app in Hin as [Hin|Hin]; [eauto|].
             apply list_elem_of_singleton in Hin. inversion Hin; subst. done. }
  destruct (net_at (clock w)) eqn:Hn; simpl in H.
  - inversion H; subst. exists [Call h0 PING Pong].
    split_and!; [done | simpl; lia | done | simpl; lia | by apply Hone | ].
    left. by eexists _, _.
  - inversion H; subst. exists [Call h0 PING NoPong].
    split_and!; [done | simpl; lia | done | simpl; lia | by apply Hone | ].
    right; left. split_and!; try done.
    intros h1 Hin. apply list_elem_of_singleton in Hin. discriminate.
  - apply (Hretry Refused ConnectionError); [done | done | ].
    destruct (Z.of_nat k =? Z.of_nat n - 1); exact H.
  - apply (Hretry TimedOut TimeoutError); [done | done | ].
    destruct (Z.of_nat k =? Z.of_nat n - 1); exact H.
  - inversion H; subst. exists [Call h0 PING Rejected].
    split_and!; [done | simpl; lia | done | simpl; lia | by apply Hone | ].
    right; right. split_and!; try done. right; left. eauto.
Qed.

Lemma get_redis_connection_out_of_range (i : Z) (n : nat) (max_dbs : Z) (w : world) :
  i < 0 ∨ max_dbs < i →
  get_redis_connection net_at i n max_dbs w =
  (Raise (ValueError ("db_index must be an integer between 0 and "
                      +:+ pretty max_dbs +:+ ".")), w).
Proof.
  intros Hi. unfold get_redis_connection, validate_db_index.
  replace ((i <? 0) || (i >? max_dbs)) with true; [reflexivity|].
  symmetry. apply orb_true_iff. rewrite Z.ltb_lt, Z.gtb_gt. lia.
Qed.

Lemma get_redis_connection_in_range (i : Z) (n : nat) (max_dbs : Z) (w : world) :
  0 ≤ i ≤ max_dbs →
  get_redis_connection net_at i n max_dbs w = attempts net_at i n 0 n w.
Proof.
  intros Hi. unfold get_redis_connection, validate_db_index.
  replace ((i <? 0) || (i >? max_dbs)) with false; [reflexivity|].
  symmetry. apply orb_false_iff. rewrite Z.ltb_ge, Z.gtb_ltb, Z.ltb_ge. lia.
Qed.

Lemma range_cases (i max_dbs : Z) : (i < 0 ∨ max_dbs < i) ∨ 0 ≤ i ≤ max_dbs.
Proof. lia. Qed.

(** A returned object was asked for with an index in range. *)
Lemma get_redis_connection_returns_in_range (i : Z) (n : nat) (max_dbs : Z)
    (w w' : world) (o : option Redis) :
  get_redis_connection net_at i n max_dbs w = (Return o, w') → 0 ≤ i ≤ max_dbs.
Proof.
  intros H. destruct (range_cases i max_dbs) as [Hi|Hi]; [|done].
  rewrite get_redis_connection_out_of_range in H by done. discriminate.
Qed.

Lemma initial_world_cache_ok : cache_ok initial_world.
Proof. intros i h H. cbn in H. rewrite lookup_empty in H. discriminate. Qed.

Lemma cache_ok_installed (i : Z) (w : world) (conns : gmap Z Redis) :
  cache_ok w →
  conns = <[i := mkRedis (next_obj w) i]> (redis_connections w) →
  ∀ j h, conns !! j = Some h → db h = j ∧ (obj_id h < S (next_obj w))%nat.
Proof.
  intros Hok -> j h. rewrite lookup_insert. case_decide as Hj.
  - intros [= <-]. subst. simpl. split; [done | lia].
  - intros Hh. destruct (Hok _ _ Hh). split; [done | lia].
Qed.

(** An object that is returned is the one found under the index when the
    call returns, it is configured for that database, and the call has not
    changed what the server stores. *)
Lemma returned_object_is_cached (i : Z) (n : nat) (max_dbs : Z)
    (w w' : world) (h : Redis) :
  cache_ok w →
  get_redis_connection net_at i n max_dbs w = (Return (Some h), w') →
  redis_connections w' !! i = Some h ∧ db h = i ∧ store w' = store w.
Proof.
  intros Hok H.
  pose proof (get_redis_connection_returns_in_range _ _ _ _ _ _ H) as Hi.
  rewrite get_redis_connection_in_range in H by done.
  apply attempts_spec in H; [|done].
  destruct H as (new & _ & _ & Hst & _ & _ & Hout).
  destruct Hout as [(h' & rest & [= <-] & Hh & _ & Hc & _)
                   |[([= ->] & Hc & _ & _)|(_ & _ & Hfail)]].
  - rewrite Hc. split_and!; [done | by destruct (Hok _ _ Hh) | done].
  - rewrite Hc, lookup_insert_eq. done.
  - destruct Hfail as [(? & _)|[(? & _)|(? & ? & ? & _)]]; discriminate.
Qed.

(** C9. The cache invariant is kept by every call of
    [get_redis_connection], whatever the retry bound, the index and the
    behaviour of the network: an index has at most one cached object, the
    object cached under [j] is configured for database [j], and an object
    the call returns is the one cached under the requested index when the
    call returns. *)
Theorem get_redis_connection_keeps_cache (i : Z) (n : nat) (max_dbs : Z)
    (w w' : world) (r : result (option Redis)) :
  cache_ok w →
  get_redis_connection net_at i n max_dbs w = (r, w') →
  cache_ok w' ∧
  (∀ j h1 h2, redis_connections w' !! j = Some h1 →
              redis_connections w' !! j = Some h2 → h1 = h2) ∧
  (∀ h, r = Return (Some h) → redis_connections w' !! i = Some h ∧ db h = i).
Proof.
  intros Hok H.
  split_and!; [ | intros j h1 h2 H1 H2; congruence | ].
  - destruct (range_cases i max_dbs) as [Hi|Hi].
    { rewrite get_redis_connection_out_of_range in H by done.
      inversion H; subst. done. }
    rewrite get_redis_connection_in_range in H by done.
    apply attempts_spec in H; [|done].
    destruct H as (new & _ & _ & _ & _ & _ & Hout).
    destruct Hout as [(h & rest & _ & _ & _ & Hc & Hn)
                     |[(_ & Hc & Hn & _)|(Hc & Hn & _)]];
      unfold cache_ok; rewrite ?Hn.
    + rewrite Hc. exact Hok.
    + by eapply cache_ok_installed.
    + rewrite Hc. exact Hok.
  - intros h ->. destruct (returned_object_is_cached _ _ _ _ _ _ Hok H) as (? & ? & _).
    done.
Qed.

(** C5, as the code has it.  An object that [get_redis_connection] returns
    is either the one that was cached when the call started, and then it
    answered PONG to a PING sent by this call, or an object built by this
    call, and then this call sent it nothing and no PING of this call was
    answered PONG. *)
Theorem returned_object_probed_unless_new (i : Z) (n : nat) (max_dbs : Z)
    (w w' : world) (h : Redis) :
  cache_ok w →
  get_redis_connection net_at i n max_dbs w = (Return (Some h), w') →
  ∃ new : list event,
    trace w' = new ++ trace w ∧
    ((redis_connections w !! i = Some h ∧ ∃ rest, new = Call h PING Pong :: rest)
     ∨ (h = mkRedis (next_obj w) i ∧
        redis_connections w !! i ≠ Some h ∧
        (∀ c r, Call h c r ∉ new) ∧
        (∀ h0, Call h0 PING Pong ∉ new))).
Proof.
  intros Hok H.
  pose proof (get_redis_connection_returns_in_range _ _ _ _ _ _ H) as Hi.
  rewrite get_redis_connection_in_range in H by done.
  apply attempts_spec in H; [|done].
  destruct H as (new & Ht & _ & _ & _ & Hev & Hout).
  exists new. split; [done|].
  destruct Hout as [(h' & rest & [= <-] & Hh & -> & _ & _)
                   |[([= ->] & _ & _ & Hp)|(_ & _ & Hfail)]].
  - left. eauto.
  - right. split_and!; [done | | | done].
    + intros Hh. apply Hok in Hh as [_ Hlt]. simpl in Hlt. lia.
    + intros c r Hin. apply Hev in Hin as (h0 & r0 & [= <- _ _] & Hh).
      apply Hok in Hh as [_ Hlt]. simpl in Hlt. lia.
  - destruct Hfail as [(? & _)|[(? & _)|(? & ? & ? & _)]]; discriminate.
Qed.

End Cache.

Lemma warm_world_cache_ok : cache_ok warm_world.
Proof.
  intros i h H. cbn in H. apply lookup_singleton_Some in H as [<- <-].
  split; [done | simpl; lia].
Qed.

(** Instance of C9: one refused PING, then an answered one, on [warm_world]. *)
Lemma get_redis_connection_keeps_cache_witness :
  cache_ok warm_world ∧
  get_redis_connection (outage 1) 0 3 15 warm_world =
    (Return (Some (mkRedis 0 0)),
     probed (mkRedis 0 0) Pong (probed (mkRedis 0 0) Refused warm_world)) ∧
  cache_ok (probed (mkRedis 0 0) Pong (probed (mkRedis 0 0) Refused warm_world)) ∧
  (∀ j h1 h2,
     redis_connections
       (probed (mkRedis 0 0) Pong (probed (mkRedis 0 0) Refused warm_world)) !! j = Some h1 →
     redis_connections
       (probed (mkRedis 0 0) Pong (probed (mkRedis 0 0) Refused warm_world)) !! j = Some h2 →
     h1 = h2) ∧
  (∀ h, Return (Some (mkRedis 0 0)) = Return (Some h) →
     redis_connections
       (probed (mkRedis 0 0) Pong (probed (mkRedis 0 0) Refused warm_world)) !! 0 = Some h ∧
     db h = 0).
Proof.
  split; [exact warm_world_cache_ok|].
  split; [reflexivity|].
  apply (get_redis_connection_keeps_cache (outage 1) 0 3 15 warm_world);
    [exact warm_world_cache_ok | reflexivity].
Defined.

(** C5 as stated fails: on an empty cache the call returns the object it
    has just built, and has sent no PING at all. *)
Lemma new_object_returned_without_ping :
  get_redis_connection reachable 0 3 15 initial_world =
    (Return (Some (mkRedis 0 0)), installed 0 initial_world) ∧
  trace (installed 0 initial_world) = [] ∧
  clock (installed 0 initial_world) = 0%nat ∧
  ¬ ∃ r, Call (mkRedis 0 0) PING r ∈ trace (installed 0 initial_world).
Proof.
  split_and!; try reflexivity.
  intros [r Hr]. cbn in Hr. inversion Hr.
Qed.

(** Instance of C5 on [initial_world]: the object returned is new. *)
Lemma returned_object_probed_unless_new_witness :
  cache_ok initial_world ∧
  get_redis_connection reachable 0 3 15 initial_world =
    (Return (Some (mkRedis 0 0)), installed 0 initial_world) ∧
  ∃ new : list event,
    trace (installed 0 initial_world) = new ++ trace initial_world ∧
    ((redis_connections initial_world !! 0 = Some (mkRedis 0 0) ∧
      ∃ rest, new = Call (mkRedis 0 0) PING Pong :: rest)
     ∨ (mkRedis 0 0 = mkRedis (next_obj initial_world) 0 ∧
        redis_connections initial_world !! 0 ≠ Some (mkRedis 0 0) ∧
        (∀ c r, Call (mkRedis 0 0) c r ∉ new) ∧
        (∀ h0, Call h0 PING Pong ∉ new))).
Proof.
  split; [exact initial_world_cache_ok|].
  split; [reflexivity|].
  apply (returned_object_probed_unless_new reachable 0 3 15 initial_world);
    [exact initial_world_cache_ok | reflexivity].
Defined.


(** * The handlers *)

Section Handlers.

Variable net_at : nat → net.

Lemma bind_Return {S A B} (m : ST S A) (f : A → ST S B) (s s' : S) (b : B) :
  bind m f s = (Return b, s') →
  ∃ a s1, m s = (Return a, s1) ∧ f a s1 = (Return b, s').
Proof.
  unfold bind. destruct (m s) as [[a|e] s1]; [eauto | discriminate].
Qed.

Lemma try_internal_Return {A} (m : M A) (w w' : world) (a : A) :
  try_except m any_Exception internal_error w = (Return a, w') →
  m w = (Return a, w').
Proof.
  unfold try_except. destruct (m w) as [[a'|e] w1]; [done | discriminate].
Qed.

(** Whatever leaves a handler as an exception is an
    [HTTPException(status_code=500)]. *)
Lemma try_internal_Raise {A} (m : M A) (w w' : world) (e : exn) :
  try_except m any_Exception internal_error w = (Raise e, w') →
  ∃ e', e = HTTPException 500 (Str e') ∧ m w = (Raise e', w').
Proof.
  unfold try_except. destruct (m w) as [[a'|e'] w1]; [discriminate|].
  intros [= <- <-]. eauto.
Qed.

Lemma send_Return {A} (h : Redis) (c : command) (k : bool → M A)
    (w w' : world) (a : A) :
  send net_at h c k w = (Return a, w') →
  served (net_at (clock w)) = true ∧
  ∃ pong, k pong (sent h c (net_at (clock w)) w) = (Return a, w').
Proof.
  unfold send, bind, roundtrip. fold (sent h c (net_at (clock w)) w).
  destruct (net_at (clock w)); try discriminate; eauto.
Qed.

Lemma method_Return {A} (r : option Redis) (f : Redis → M A) (w w' : world) (a : A) :
  method r f w = (Return a, w') → ∃ h, r = Some h ∧ f h w = (Return a, w').
Proof. destruct r as [h|]; [eauto | discriminate]. Qed.

(** The round trips of a call of [get_redis_connection] are PINGs. *)
Lemma get_redis_connection_trace (i : Z) (n : nat) (max_dbs : Z) (w w' : world)
    (r : result (option Redis)) :
  get_redis_connection net_at i n max_dbs w = (r, w') →
  ∃ new, trace w' = new ++ trace w ∧ (∀ e, e ∈ new → is_ping e = true).
Proof.
  intros H. destruct (range_cases i max_dbs) as [Hi|Hi].
  { rewrite get_redis_connection_out_of_range in H by done.
    inversion H; subst. exists []. split; [done|]. intros e He. inversion He. }
  rewrite get_redis_connection_in_range in H by done.
  apply attempts_spec in H; [|done].
  destruct H as (new & Ht & _ & _ & _ & Hev & _).
  exists new. split; [done|].
  intros e He. apply Hev in He as (h0 & r0 & -> & _). done.
Qed.

(** What a successful [set] leaves behind. *)
Lemma set_Return (h : Redis) (k v : string) (ex : option Z) (w w' : world) (b : bool) :
  set_ net_at h k v ex w = (Return b, w') →
  trace w' = Call h (SET k v ex) (net_at (clock w)) :: trace w.
Proof.
  intros H. apply send_Return in H as (_ & pong & H).
  destruct ex as [t|].
  - destruct (expire_time_ok t); [|discriminate]. inversion H; subst. reflexivity.
  - inversion H; subst. reflexivity.
Qed.

Lemma exists_Return (h : Redis) (k : string) (w w' : world) (n : Z) :
  exists_ net_at h k w = (Return n, w') →
  w' = sent h (EXISTS k) (net_at (clock w)) w.
Proof.
  intros H. apply send_Return in H as (_ & pong & H).
  inversion H; subst. reflexivity.
Qed.

(** The common part of [create_key] and [update_key] after the existence
    check: the write and the answer. *)
Lemma write_and_echo (data : KeyValueInput) (r : option Redis) (message : string)
    (w w' : world) (o : KeyValueOutput) :
  bind (if truthy_opt (in_ttl data)
        then method r (λ h, set_ net_at h (in_key data) (in_value data) (in_ttl data))
        else method r (λ h, set_ net_at h (in_key data) (in_value data) None))
       (λ _, ret {| out_key := in_key data; out_value := Some (in_value data);
                    out_ttl := in_ttl data; out_db_index := in_db_index data;
                    out_message := message |}) w = (Return o, w') →
  o = {| out_key := in_key data; out_value := Some (in_value data);
         out_ttl := in_ttl data; out_db_index := in_db_index data;
         out_message := message |} ∧
  ∃ h ex r0, trace w' = Call h (SET (in_key data) (in_value data) ex) r0 :: trace w.
Proof.
  intros H. apply bind_Return in H as (b & w1 & Hset & Hret).
  inversion Hret; subst. split; [done|].
  destruct (truthy_opt (in_ttl data));
    apply method_Return in Hset as (h & -> & Hset);
    apply set_Return in Hset; eauto.
Qed.

(** C10. When [create_key] or [update_key] returns, the answer carries the
    key, the value, the ttl and the db_index of the request as they came,
    and the handler has sent no TTL command: what it reports as ttl is the
    requested one ([None] when there was none). *)
Theorem create_update_echo_request (data : KeyValueInput) (w w' : world)
    (o : KeyValueOutput) :
  create_key net_at data w = (Return o, w') ∨
  update_key net_at data w = (Return o, w') →
  out_key o = in_key data ∧
  out_value o = Some (in_value data) ∧
  out_ttl o = in_ttl data ∧
  out_db_index o = in_db_index data ∧
  ∃ new, trace w' = new ++ trace w ∧ (∀ e, e ∈ new → is_ttl e = false).
Proof.
  intros [H|H]; apply try_internal_Return in H;
    apply bind_Return in H as (r & w1 & Hconn & H);
    apply bind_Return in H as (found & w2 & Hex & H);
    apply method_Return in Hex as (h & -> & Hex);
    apply exists_Return in Hex;
    apply get_redis_connection_trace in Hconn as (pings & Hp & Hall).
  - destruct (truthy found); [discriminate|].
    apply write_and_echo in H as (-> & h' & ex & r0 & Ht).
    split_and!; try done.
    exists (Call h' (SET (in_key data) (in_value data) ex) r0
            :: Call h (EXISTS (in_key data)) (net_at (clock w1)) :: pings).
    split; [rewrite Ht, Hex; simpl; by rewrite Hp|].
    intros e He. apply elem_of_cons in He as [->|He]; [done|].
    apply elem_of_cons in He as [->|He]; [done|].
    apply Hall in He. by destruct e as [? [] ?].
  - destruct (negb (truthy found)); [discriminate|].
    apply write_and_echo in H as (-> & h' & ex & r0 & Ht).
    split_and!; try done.
    exists (Call h' (SET (in_key data) (in_value data) ex) r0
            :: Call h (EXISTS (in_key data)) (net_at (clock w1)) :: pings).
    split; [rewrite Ht, Hex; simpl; by rewrite Hp|].
    intros e He. apply elem_of_cons in He as [->|He]; [done|].
    apply elem_of_cons in He as [->|He]; [done|].
    apply Hall in He. by destruct e as [? [] ?].
Qed.

Lemma exists_served (h : Redis) (k : string) (w : world) :
  served (net_at (clock w)) = true →
  exists_ net_at h k w =
  (Return (match store w !! (db h, k) with Some _ => 1 | None => 0 end),
   sent h (EXISTS k) (net_at (clock w)) w).
Proof.
  intros Hs. unfold exists_, send, bind, roundtrip.
  fold (sent h (EXISTS k) (net_at (clock w)) w).
  destruct (net_at (clock w)); try discriminate; reflexivity.
Qed.

Lemma set_served_plain (h : Redis) (k v : string) (w : world) :
  served (net_at (clock w)) = true →
  ∃ w', set_ net_at h k v None w = (Return true, w') ∧
        store w' = <[(db h, k) := mkEntry v None]> (store w) ∧
        redis_connections w' = redis_connections w ∧
        next_obj w' = next_obj w.
Proof.
  intros Hs. unfold set_, send, bind, roundtrip.
  destruct (net_at (clock w)); try discriminate; eexists; split_and!; reflexivity.
Qed.

(** With the server answering, a call with an index in range returns an
    object for that database after at most one round trip. *)
Lemma get_redis_connection_served (i : Z) (w : world) :
  cache_ok w → 0 ≤ i ≤ 15 →
  served (net_at (clock w)) = true →
  ∃ h w1, get_redis_connection net_at i 3 15 w = (Return (Some h), w1) ∧
          db h = i ∧ store w1 = store w ∧
          (clock w ≤ clock w1 ≤ S (clock w))%nat.
Proof.
  intros Hok Hi Hs. rewrite get_redis_connection_in_range by done.
  simpl. unfold try_except. rewrite attempt_cases.
  destruct (redis_connections w !! i) as [h0|] eqn:Hc.
  - destruct (Hok _ _ Hc) as [Hdb _].
    destruct (net_at (clock w)); try discriminate;
      eexists _, _; (split; [reflexivity|]); simpl; split_and!; try done; lia.
  - eexists _, _. split; [reflexivity|]. simpl. split_and!; try done; lia.
Qed.

(** C8. An update of a key that exists, with no ttl in the request and the
    server answering, returns the updated record and leaves the key with the
    new value and without expiry, whatever expiry it had; the other keys
    are as before. *)
Theorem update_without_ttl_clears_expiry (data : KeyValueInput) (w : world) :
  cache_ok w →
  0 ≤ in_db_index data ≤ 15 →
  in_ttl data = None →
  is_Some (store w !! (in_db_index data, in_key data)) →
  (∀ t, (clock w ≤ t)%nat → served (net_at t) = true) →
  ∃ w',
    update_key net_at data w =
      (Return {| out_key := in_key data; out_value := Some (in_value data);
                 out_ttl := None; out_db_index := in_db_index data;
                 out_message := "Key updated successfully" |}, w') ∧
    store w' !! (in_db_index data, in_key data) = Some (mkEntry (in_value data) None) ∧
    (∀ j k, (j, k) ≠ (in_db_index data, in_key data) →
            store w' !! (j, k) = store w !! (j, k)).
Proof.
  destruct data as [key value i ttl]. cbn [in_key in_value in_db_index in_ttl].
  intros Hok Hi -> [e He] Hnet.
  destruct (get_redis_connection_served i w Hok Hi)
    as (h & w1 & Hacq & <- & Hst & Hcl); [apply Hnet; lia|].
  destruct (set_served_plain h key value (sent h (EXISTS key) (net_at (clock w1)) w1))
    as (w' & Hset & Hst' & _); [apply Hnet; simpl; lia|].
  cbn [store sent] in Hst'. rewrite Hst in Hst'.
  exists w'. split_and!.
  - unfold update_key, try_except, bind.
    cbn [in_key in_value in_db_index in_ttl]. rewrite Hacq. cbv beta iota.
    cbn [method]. rewrite exists_served by (apply Hnet; lia).
    rewrite Hst, He. cbn [truthy Z.eqb negb truthy_opt].
    rewrite Hset. reflexivity.
  - rewrite Hst'. apply lookup_insert_eq.
  - intros j k Hjk. rewrite Hst'. by apply lookup_insert_ne.
Qed.

(** X27. Every exception that leaves one of the five handlers has status
    500: whatever was raised inside, a 400 or a 404 of the handler itself
    included, the caller sees it as the detail of a 500. *)
Lemma handlers_raise_only_500 (data : KeyValueInput) (key : string) (i : Z)
    (w w' : world) (e : exn) :
  create_key net_at data w = (Raise e, w') ∨
  update_key net_at data w = (Raise e, w') ∨
  get_key net_at key i w = (Raise e, w') ∨
  delete_key net_at key i w = (Raise e, w') ∨
  get_ttl net_at key i w = (Raise e, w') →
  ∃ e', e = HTTPException 500 (Str e').
Proof.
  intros [H|[H|[H|[H|H]]]]; apply try_internal_Raise in H as (e' & -> & _); eauto.
Qed.

(** X28. When [get_ttl] returns, the key is stored in the requested
    database and the answer is the string "No TTL set" for a key without
    expiry and the remaining seconds, never negative, for a key with one. *)
Lemma get_ttl_answer (key : string) (i : Z) (w w' : world) (t : TTLResponse) :
  cache_ok w →
  get_ttl net_at key i w = (Return t, w') →
  ttl_key t = key ∧ ttl_db_index t = i ∧
  ∃ e, store w !! (i, key) = Some e ∧
       ttl_ttl t = match e_ttl e with
                   | None => Chars "No TTL set"
                   | Some n => Int (Z.of_nat n)
                   end.
Proof.
  intros Hok H. apply try_internal_Return in H.
  apply bind_Return in H as (r & w1 & Hconn & H).
  apply bind_Return in H as (ttl & w2 & Httl & H).
  apply method_Return in Httl as (h & -> & Httl).
  destruct (returned_object_is_cached net_at _ _ _ _ _ _ Hok Hconn) as (_ & Hdb & Hst).
  apply send_Return in Httl as (_ & pong & Httl).
  unfold bind, get_store, ret in Httl. cbn [store sent] in Httl.
  rewrite Hdb, Hst in Httl. inversion Httl; subst ttl w2. clear Httl.
  revert H. destruct (store w !! (i, key)) as [e|]; [|discriminate].
  destruct (e_ttl e) as [n|] eqn:Hn; cbv beta iota zeta.
  - replace (Z.of_nat n =? -2) with false by (symmetry; apply Z.eqb_neq; lia).
    replace (Z.of_nat n =? -1) with false by (symmetry; apply Z.eqb_neq; lia).
    intros [= <- <-]. cbn. split_and!; try done.
    eexists. split; [reflexivity|]. by rewrite Hn.
  - intros [= <- <-]. cbn. split_and!; try done.
    eexists. split; [reflexivity|]. by rewrite Hn.
Qed.

End Handlers.

(** Instance of C10: a create with a ttl of 60 on [initial_world]. *)
Lemma create_update_echo_request_witness :
  create_key reachable (mkInput "k" "v" 3 (Some 60)) initial_world =
    (Return {| out_key := "k"; out_value := Some "v"; out_ttl := Some 60;
               out_db_index := 3; out_message := "Key created successfully" |},
     snd (create_key reachable (mkInput "k" "v" 3 (Some 60)) initial_world)) ∧
  out_key {| out_key := "k"; out_value := Some "v"; out_ttl := Some 60;
             out_db_index := 3; out_message := "Key created successfully" |} = "k" ∧
  out_value {| out_key := "k"; out_value := Some "v"; out_ttl := Some 60;
               out_db_index := 3; out_message := "Key created successfully" |} = Some "v" ∧
  out_ttl {| out_key := "k"; out_value := Some "v"; out_ttl := Some 60;
             out_db_index := 3; out_message := "Key created successfully" |} = Some 60 ∧
  out_db_index {| out_key := "k"; out_value := Some "v"; out_ttl := Some 60;
                  out_db_index := 3; out_message := "Key created successfully" |} = 3 ∧
  ∃ new,
    trace (snd (create_key reachable (mkInput "k" "v" 3 (Some 60)) initial_world)) =
      new ++ trace initial_world ∧
    (∀ e, e ∈ new → is_ttl e = false).
Proof.
  assert (H : create_key reachable (mkInput "k" "v" 3 (Some 60)) initial_world =
     (Return {| out_key := "k"; out_value := Some "v"; out_ttl := Some 60;
                out_db_index := 3; out_message := "Key created successfully" |},
      snd (create_key reachable (mkInput "k" "v" 3 (Some 60)) initial_world)))
    by (vm_compute; reflexivity).
  split; [exact H|].
  apply (create_update_echo_request reachable (mkInput "k" "v" 3 (Some 60))
           initial_world _ _ (or_introl H)).
Defined.

Lemma expiring_world_cache_ok : cache_ok expiring_world.
Proof. intros i h H. cbn in H. rewrite lookup_empty in H. discriminate. Qed.

(** Instance of C8: key [a] of [expiring_world] has 30 seconds to live and
    is updated without ttl. *)
Lemma update_without_ttl_clears_expiry_witness :
  store expiring_world !! (0, "a") = Some (mkEntry "1" (Some 30%nat)) ∧
  ∃ w',
    update_key reachable (mkInput "a" "2" 0 None) expiring_world =
      (Return {| out_key := "a"; out_value := Some "2"; out_ttl := None;
                 out_db_index := 0; out_message := "Key updated successfully" |}, w') ∧
    store w' !! (0, "a") = Some (mkEntry "2" None) ∧
    (∀ j k, (j, k) ≠ (0, "a") → store w' !! (j, k) = store expiring_world !! (j, k)).
Proof.
  split; [vm_compute; reflexivity|].
  apply (update_without_ttl_clears_expiry reachable (mkInput "a" "2" 0 None) expiring_world).
  - exact expiring_world_cache_ok.
  - simpl. lia.
  - reflexivity.
  - exists (mkEntry "1" (Some 30%nat)). vm_compute. reflexivity.
  - intros t _. reflexivity.
Defined.


(** C2. The code answers 500 where the claim has 400 and 404: creating key
    [a], which exists, and updating or deleting key [b], which does not,
    raise the [HTTPException] with status 400 or 404 inside the [try], the
    [except Exception] of the same handler catches it, and what leaves the
    handler and reaches the caller has status 500. *)
Theorem conflict_and_not_found_answered_500 :
  fst (create_key reachable (mkInput "a" "2" 0 None) expiring_world) =
    Raise (HTTPException 500 (Str (HTTPException 400 (Text "Key already exists")))) ∧
  fst (update_key reachable (mkInput "b" "2" 0 None) expiring_world) =
    Raise (HTTPException 500 (Str (HTTPException 404 (Text "Key not found")))) ∧
  fst (delete_key reachable "b" 0 expiring_world) =
    Raise (HTTPException 500 (Str (HTTPException 404 (Text "Key not found")))) ∧
  fst (serve_all (application fixed_window "admin" reachable)
         [sample_request (Create (mkInput "a" "2" 0 None));
          sample_request (Update (mkInput "b" "2" 0 None));
          sample_request (Delete "b" 0)] sample_app) = [500; 500; 500].
Proof. split_and!; vm_compute; reflexivity. Qed.

(** C7. The code answers 500 where the claim has NotFound: for key [b],
    which does not exist, the TTL command returns -2, the handler raises the
    [HTTPException] with status 404 inside the [try], and its own
    [except Exception] turns it into status 500. *)
Theorem ttl_of_missing_key_answered_500 :
  fst (get_ttl reachable "b" 0 expiring_world) =
    Raise (HTTPException 500 (Str (HTTPException 404 (Text "Key not found")))) ∧
  trace (snd (get_ttl reachable "b" 0 expiring_world)) =
    [Call (mkRedis 0 0) (TTL "b") Pong] ∧
  fst (application fixed_window "admin" reachable (sample_request (Ttl "b" 0)) sample_app) =
    Return (mkResponse 500 (Detail (Str (HTTPException 404 (Text "Key not found"))))).
Proof. split_and!; vm_compute; reflexivity. Qed.

(** * The request pipeline *)

Section Pipeline.

Context {L : Type}.
Variable RateLimiter : Z → Z → Request → ST L unit.
Variable ADMIN_API_KEY : string.
Variable net_at : nat → net.

(** [rate_limit_middleware] hands every request to the rest of the chain and
    passes the answer on: its window, its keys and its limits are computed
    and dropped. *)
Lemma rate_limit_middleware_transparent (request : Request)
    (call_next : Request → ST (app L) Response) (a : app L) :
  rate_limit_middleware request call_next a = call_next request a.
Proof.
  unfold rate_limit_middleware.
  destruct (String.eqb (path request) "/metrics"); [reflexivity|].
  unfold bind, ret. by destruct (call_next request a) as [[response|e] a'].
Qed.

Lemma dependencies_invalid_key (request : Request) (a : app L) :
  x_api_key request ∉ (api_keys a).*1 →
  dependencies RateLimiter request a =
  (Raise (HTTPException 403 (Text "Invalid API Key")), a).
Proof.
  intros Hk. unfold dependencies, validate_api_key_dependency, validate_api_key, bind.
  rewrite bool_decide_eq_false_2 by done. reflexivity.
Qed.

(** C6. A request for one of the five guarded routes whose API key is not
    in the table is answered 403 by the first dependency: the rate limiter
    dependency is not called, whatever it would do, so the state of its
    counters is the one before the request, and so are the Redis side and
    the table; [rate_limit_middleware], which runs before, keeps no counter.
    Only [REQUEST_COUNT] records the request. *)
Theorem invalid_api_key_ends_before_rate_limiter (request : Request) (a : app L) :
  guarded (op request) = true →
  x_api_key request ∉ (api_keys a).*1 →
  ∃ a',
    application RateLimiter ADMIN_API_KEY net_at request a =
      (Return (mkResponse 403 (Detail (Text "Invalid API Key"))), a') ∧
    limiter a' = limiter a ∧
    backend a' = backend a ∧
    api_keys a' = api_keys a ∧
    request_count a' = (method_of request, path request, "403") :: request_count a.
Proof.
  intros Hg Hk. unfold application.
  rewrite rate_limit_middleware_transparent.
  pose proof (dependencies_invalid_key request a Hk) as Hd.
  assert (Hr : router RateLimiter ADMIN_API_KEY net_at request a =
               (Return (mkResponse 403 (Detail (Text "Invalid API Key"))), a)).
  { unfold router, endpoint.
    destruct (op request); try discriminate; unfold bind; rewrite Hd; reflexivity. }
  unfold prometheus_middleware, bind. rewrite Hr.
  eexists. split; [reflexivity|]. split_and!; reflexivity.
Qed.

End Pipeline.

(** Instance of C6: [/get] with a key that is not in the table of
    [sample_app]. *)
Lemma invalid_api_key_ends_before_rate_limiter_witness :
  guarded (op (intruder_request (Get "a" 0))) = true ∧
  (x_api_key (intruder_request (Get "a" 0)) ∉ (api_keys sample_app).*1) ∧
  ∃ a',
    application fixed_window "admin" reachable (intruder_request (Get "a" 0)) sample_app =
      (Return (mkResponse 403 (Detail (Text "Invalid API Key"))), a') ∧
    limiter a' = limiter sample_app ∧
    backend a' = backend sample_app ∧
    api_keys a' = api_keys sample_app ∧
    request_count a' = ("GET", "/get", "403") :: request_count sample_app.
Proof.
  assert (Hk : x_api_key (intruder_request (Get "a" 0)) ∉ (api_keys sample_app).*1).
  { cbn. intros H. apply list_elem_of_singleton in H. discriminate. }
  split; [reflexivity|]. split; [exact Hk|].
  apply (invalid_api_key_ends_before_rate_limiter fixed_window "admin" reachable
           (intruder_request (Get "a" 0)) sample_app); [reflexivity | exact Hk].
Defined.

(** C1. The code lets through what the claim has denied.  The middleware
    answers with whatever the rest of the chain answers, for every request
    and every state; six requests from 10.0.0.1 in one window are all
    answered 200, and so are a hundred and one requests from 127.0.0.1 spread
    over one window. *)
Theorem rate_limit_middleware_denies_nothing :
  (∀ (L : Type) (request : Request) (call_next : Request → ST (app L) Response)
     (a : app L),
     rate_limit_middleware request call_next a = call_next request a) ∧
  fst (serve_all (application fixed_window "admin" reachable)
         (replicate 6 (sample_request (Get "a" 0))) sample_app) = replicate 6 200 ∧
  fst (serve_all (application fixed_window "admin" reachable)
         (map (λ t, {| client_host := "127.0.0.1"; x_api_key := "secret";
                       now := Z.of_nat t `div` 2; op := Get "a" 0 |}) (seq 0 101))
         sample_app) = replicate 101 200.
Proof.
  split_and!.
  - intros L request call_next a. apply rate_limit_middleware_transparent.
  - vm_compute. reflexivity.
  - vm_compute. reflexivity.
Qed.

(** * More on the connection cache *)

Section CacheFootprint.

Variable net_at : nat → net.

(** How a call of [get_redis_connection] relates the worlds around it. *)
Lemma get_redis_connection_frame (i : Z) (n : nat) (max_dbs : Z) (w w' : world)
    (r : result (option Redis)) :
  get_redis_connection net_at i n max_dbs w = (r, w') →
  store w' = store w ∧
  within n w w' ∧
  keeps_cache_ok w w' ∧
  (∀ j, j ≠ i → redis_connections w' !! j = redis_connections w !! j) ∧
  (∀ e, r = Raise e → same_cache w w') ∧
  (r = Return None → n = 0%nat ∧ w' = w).
Proof.
  intros H. destruct (range_cases i max_dbs) as [Hi|Hi].
  { rewrite get_redis_connection_out_of_range in H by done.
    inversion H; subst. unfold within, keeps_cache_ok, same_cache.
    split_and!; try done; lia. }
  rewrite get_redis_connection_in_range in H by done.
  pose proof H as H0.
  apply attempts_spec in H; [|done].
  destruct H as (new & Ht & Hcl & Hst & Hlen & Hev & Hout).
  unfold within, keeps_cache_ok, same_cache.
  destruct Hout as [(h & rest & -> & Hh & -> & Hc & Hn)
                   |[(-> & Hc & Hn & _)|(Hc & Hn & Hfail)]].
  - split_and!; try done; try lia.
    + intros Hok. unfold cache_ok. rewrite Hc, Hn. exact Hok.
    + intros j _. by rewrite Hc.
  - split_and!; try done; try lia.
    + intros Hok. unfold cache_ok. rewrite Hn. by eapply cache_ok_installed.
    + intros j Hj. rewrite Hc. by apply lookup_insert_ne.
  - split_and!; try done; try lia.
    + intros Hok. unfold cache_ok. rewrite Hc, Hn. exact Hok.
    + intros j _. by rewrite Hc.
    + intros ->. destruct Hfail as [(_ & ->)|[(? & _)|(? & ? & ? & _)]];
        try discriminate.
      split; [done|]. simpl in H0. by inversion H0.
Qed.

(** X1. A call of [get_redis_connection] for index [i] leaves the objects
    cached under the other indices where they are and does not change what
    the server stores; when it raises, the whole cache is as before: an
    object whose PING met an error stays cached. *)
Theorem get_redis_connection_touches_only_its_index (i : Z) (n : nat) (max_dbs : Z)
    (w w' : world) (r : result (option Redis)) :
  get_redis_connection net_at i n max_dbs w = (r, w') →
  store w' = store w ∧
  (∀ j, j ≠ i → redis_connections w' !! j = redis_connections w !! j) ∧
  (∀ e, r = Raise e → redis_connections w' = redis_connections w).
Proof.
  intros H. apply get_redis_connection_frame in H as (Hst & _ & _ & Hj & He & _).
  split_and!; [done | done | ]. intros e Hr. by destruct (He e Hr).
Qed.

(** X2. [get_redis_connection] returns [None] in one case only: the index
    is in range and [max_retries], any Python int, is 0 or negative, so
    that the loop does not run; the world is then untouched.  With a
    positive [max_retries] a call that returns returns an object. *)
Theorem get_redis_connection_none_iff_no_attempt (i max_retries max_dbs : Z)
    (w w' : world) :
  get_redis_connection_int net_at i max_retries max_dbs w = (Return None, w') ↔
  max_retries ≤ 0 ∧ 0 ≤ i ≤ max_dbs ∧ w' = w.
Proof.
  unfold get_redis_connection_int. split.
  - intros H.
    pose proof (get_redis_connection_returns_in_range _ _ _ _ _ _ _ H) as Hi.
    apply get_redis_connection_frame in H as (_ & _ & _ & _ & _ & Hnone).
    destruct (Hnone eq_refl) as [Hn ->]. split_and!; [lia | lia | lia | done].
  - intros (Hn & Hi & ->).
    replace (Z.to_nat max_retries) with 0%nat by lia.
    by rewrite get_redis_connection_in_range.
Qed.

(** One failed attempt that is not the last one: the loop goes on in the
    world after the PING. *)
Lemma attempts_transient_step (i : Z) (n k left : nat) (w : world) (h : Redis) :
  redis_connections w !! i = Some h →
  transient (net_at (clock w)) = true →
  Z.of_nat k ≠ Z.of_nat n - 1 →
  attempts net_at i n k (S left) w =
  attempts net_at i n (S k) left (probed h (net_at (clock w)) w).
Proof.
  intros Hc Htr Hk. simpl. unfold try_except. rewrite attempt_cases, Hc.
  apply Z.eqb_neq in Hk.
  destruct (net_at (clock w)); try discriminate; simpl; by rewrite Hk.
Qed.

Lemma attempts_recover (i : Z) (n : nat) (h : Redis) :
  ∀ (j k left : nat) (w : world),
    (k + left = n)%nat → (j < left)%nat →
    redis_connections w !! i = Some h →
    (∀ t, (t < j)%nat → transient (net_at (clock w + t)) = true) →
    net_at (clock w + j) = Pong →
    ∃ w', attempts net_at i n k left w = (Return (Some h), w') ∧
          clock w' = (clock w + S j)%nat ∧ same_cache w w' ∧
          store w' = store w ∧
          ∃ rest, trace w' = Call h PING Pong :: rest ++ trace w ∧ length rest = j.
Proof.
  induction j as [|j IH]; intros k left w Hk Hj Hc Htr Hpong.
  - destruct left as [|left]; [lia|].
    rewrite Nat.add_0_r in Hpong.
    exists (probed h Pong w). simpl. unfold try_except.
    rewrite attempt_cases, Hc, Hpong. split_and!; try done; [lia|].
    by exists [].
  - destruct left as [|left]; [lia|].
    rewrite (attempts_transient_step i n k left w h Hc); [| |lia].
    2:{ specialize (Htr 0%nat). rewrite Nat.add_0_r in Htr. apply Htr. lia. }
    destruct (IH (S k) left (probed h (net_at (clock w)) w)) as
      (w' & Hrun & Hcl & [Hsc Hsn] & Hst & rest & Hrest & Hlen);
      [lia | lia | done | | | ].
    + intros t Ht. simpl. replace (S (clock w + t)) with (clock w + S t)%nat by lia.
      apply Htr. lia.
    + simpl. replace (S (clock w + j)) with (clock w + S j)%nat by lia. done.
    + exists w'. simpl in Hcl, Hsc, Hsn, Hst, Hrest.
      split_and!; try done; [lia|].
      exists (rest ++ [Call h PING (net_at (clock w))]).
      rewrite <- app_assoc, length_app. simpl. split; [done | lia].
Qed.

(** X3. When the object cached for an index in range meets [j] connection
    errors or timeouts and then answers PONG, with [j] below [max_retries],
    [get_redis_connection] returns that same object after [j + 1] PINGs and
    leaves the cache as it was. *)
Theorem get_redis_connection_recovers_within_bound (i : Z) (n : nat) (max_dbs : Z)
    (j : nat) (w : world) (h : Redis) :
  0 ≤ i ≤ max_dbs → (j < n)%nat →
  redis_connections w !! i = Some h →
  (∀ t, (t < j)%nat → transient (net_at (clock w + t)) = true) →
  net_at (clock w + j) = Pong →
  ∃ w', get_redis_connection net_at i n max_dbs w = (Return (Some h), w') ∧
        clock w' = (clock w + S j)%nat ∧
        redis_connections w' = redis_connections w ∧
        store w' = store w.
Proof.
  intros Hi Hj Hc Htr Hpong. rewrite get_redis_connection_in_range by done.
  destruct (attempts_recover i n h j 0%nat n w) as (w' & H & Hcl & [Hsc _] & Hst & _);
    try done.
  exists w'. done.
Qed.

Lemma attempts_give_up (i : Z) (n : nat) (h : Redis) :
  ∀ (left k : nat) (w : world),
    (k + left = n)%nat → (0 < left)%nat →
    redis_connections w !! i = Some h →
    (∀ t, (t < left)%nat → transient (net_at (clock w + t)) = true) →
    ∃ cause w',
      attempts net_at i n k left w =
        (Raise (Exception ("Failed to connect to Redis on db_index " +:+ pretty i
                           +:+ " after " +:+ pretty (Z.of_nat n) +:+ " attempts.")
                          cause), w') ∧
      connection_or_timeout cause = true ∧
      clock w' = (clock w + left)%nat ∧ same_cache w w' ∧ store w' = store w.
Proof.
  induction left as [|left IH]; intros k w Hk Hpos Hc Htr; [lia|].
  destruct left as [|left].
  - pose proof (Htr 0%nat ltac:(lia)) as H0. rewrite Nat.add_0_r in H0.
    simpl. unfold try_except. rewrite attempt_cases, Hc.
    replace (Z.of_nat k =? Z.of_nat n - 1) with true by (symmetry; apply Z.eqb_eq; lia).
    destruct (net_at (clock w)) eqn:Hn; try discriminate; simpl.
    + exists ConnectionError, (probed h Refused w). simpl. split_and!; try done; lia.
    + exists TimeoutError, (probed h TimedOut w). simpl. split_and!; try done; lia.
  - rewrite (attempts_transient_step i n k (S left) w h Hc); [| |lia].
    2:{ specialize (Htr 0%nat). rewrite Nat.add_0_r in Htr. apply Htr. lia. }
    destruct (IH (S k) (probed h (net_at (clock w)) w)) as
      (cause & w' & Hrun & Hcause & Hcl & [Hsc Hsn] & Hst); [lia | lia | done | | ].
    + intros t Ht. simpl. replace (S (clock w + t)) with (clock w + S t)%nat by lia.
      apply Htr. lia.
    + exists cause, w'. simpl in Hcl, Hsc, Hsn, Hst. split_and!; try done. lia.
Qed.


(** X4. When the object cached for an index in range meets a connection
    error or a timeout at each of the [max_retries] PINGs, with
    [max_retries] positive, [get_redis_connection] raises the exception
    with the text "Failed to connect ... after [max_retries] attempts" whose
    cause is a connection error or a timeout, after exactly [max_retries]
    round trips, and the object that did not answer is still cached. *)
Theorem get_redis_connection_gives_up (i : Z) (n : nat) (max_dbs : Z)
    (w : world) (h : Redis) :
  0 ≤ i ≤ max_dbs → (0 < n)%nat →
  redis_connections w !! i = Some h →
  (∀ t, (t < n)%nat → transient (net_at (clock w + t)) = true) →
  ∃ cause w',
    get_redis_connection net_at i n max_dbs w =
      (Raise (Exception ("Failed to connect to Redis on db_index " +:+ pretty i
                         +:+ " after " +:+ pretty (Z.of_nat n) +:+ " attempts.")
                        cause), w') ∧
    connection_or_timeout cause = true ∧
    clock w' = (clock w + n)%nat ∧
    redis_connections w' !! i = Some h.
Proof.
  intros Hi Hn Hc Htr. rewrite get_redis_connection_in_range by done.
  destruct (attempts_give_up i n h n 0%nat w) as (cause & w' & H & Hcause & Hcl & [Hsc _] & _);
    try done.
  exists cause, w'. split_and!; try done. by rewrite Hsc.
Qed.

(** X5. An error outside the retried class is not retried: when the PING of
    the cached object meets one, [get_redis_connection] raises it after that
    single round trip, whatever [max_retries] allows. *)
Theorem rejected_ping_is_not_retried (i : Z) (n : nat) (max_dbs : Z)
    (w : world) (h : Redis) :
  0 ≤ i ≤ max_dbs → (0 < n)%nat →
  redis_connections w !! i = Some h →
  net_at (clock w) = Rejected →
  get_redis_connection net_at i n max_dbs w = (Raise ResponseError, probed h Rejected w).
Proof.
  intros Hi Hn Hc Hr. rewrite get_redis_connection_in_range by done.
  destruct n as [|n]; [lia|]. simpl. unfold try_except.
  by rewrite attempt_cases, Hc, Hr.
Qed.

(** X6. A cached object whose PING is answered, but not with PONG, is
    replaced: [get_redis_connection] builds a new object for the same
    database, stores it under the index and returns it, without probing the
    new one. *)
Theorem falsy_ping_replaces_object (i : Z) (n : nat) (max_dbs : Z)
    (w : world) (h : Redis) :
  0 ≤ i ≤ max_dbs → (0 < n)%nat →
  redis_connections w !! i = Some h →
  net_at (clock w) = NoPong →
  ∃ w', get_redis_connection net_at i n max_dbs w =
          (Return (Some (mkRedis (next_obj w) i)), w') ∧
        redis_connections w' !! i = Some (mkRedis (next_obj w) i) ∧
        (cache_ok w → mkRedis (next_obj w) i ≠ h) ∧
        trace w' = Call h PING NoPong :: trace w.
Proof.
  intros Hi Hn Hc Hr. rewrite get_redis_connection_in_range by done.
  destruct n as [|n]; [lia|]. simpl. unfold try_except.
  rewrite attempt_cases, Hc, Hr. eexists. split; [reflexivity|].
  simpl. split_and!; [by rewrite lookup_insert_eq | | done].
  intros Hok <-. apply Hok in Hc as [_ Hlt]. simpl in Hlt. lia.
Qed.

End CacheFootprint.

(** * Footprints of the handlers *)

Section Footprints.

Variable net_at : nat → net.

Lemma bind_cases {S A B} (m : ST S A) (f : A → ST S B) (s s' : S) (r : result B) :
  bind m f s = (r, s') →
  (∃ a s1, m s = (Return a, s1) ∧ f a s1 = (r, s')) ∨
  (∃ e, m s = (Raise e, s') ∧ r = Raise e).
Proof.
  unfold bind. destruct (m s) as [[a|e] s1]; [eauto|].
  intros [= <- <-]. eauto.
Qed.

Section Preorder.

Variable R : world → world → Prop.
Context `{!Reflexive R, !Transitive R}.

Lemma respects_ret {A} (a : A) : respects R (ret a).
Proof. intros w r w' [= <- <-]. reflexivity. Qed.

Lemma respects_raise {A} (e : exn) : respects R (raise (A := A) e).
Proof. intros w r w' [= <- <-]. reflexivity. Qed.

Lemma respects_bind {A B} (m : M A) (f : A → M B) :
  respects R m → (∀ a, respects R (f a)) → respects R (bind m f).
Proof.
  intros Hm Hf w r w' H. apply bind_cases in H as [(a & w1 & H1 & H2)|(e & H1 & _)].
  - transitivity w1; [by eapply Hm | by eapply Hf].
  - by eapply Hm.
Qed.

Lemma respects_try_internal {A} (m : M A) :
  respects R m → respects R (try_except m any_Exception internal_error).
Proof.
  intros Hm w r w'. unfold try_except.
  destruct (m w) as [[a|e] w1] eqn:H; intros [= <- <-]; by eapply Hm.
Qed.

Lemma respects_send {A} (h : Redis) (c : command) (k : bool → M A) :
  (∀ r w, R w (sent h c r w)) → (∀ b, respects R (k b)) →
  respects R (send net_at h c k).
Proof.
  intros Hs Hk. apply respects_bind.
  - intros w r w' [= <- <-]. apply Hs.
  - intros []; try apply Hk; apply respects_raise.
Qed.

End Preorder.

#[local] Instance same_cache_refl : Reflexive same_cache.
Proof. by intros w. Qed.
#[local] Instance same_cache_trans : Transitive same_cache.
Proof. intros w1 w2 w3 [H1 H2] [H3 H4]. split; congruence. Qed.
#[local] Instance same_store_refl : Reflexive same_store.
Proof. by intros w. Qed.
#[local] Instance same_store_trans : Transitive same_store.
Proof. unfold same_store. intros w1 w2 w3 H1 H2. congruence. Qed.
#[local] Instance keeps_cache_ok_refl : Reflexive keeps_cache_ok.
Proof. intros w H. exact H. Qed.
#[local] Instance keeps_cache_ok_trans : Transitive keeps_cache_ok.
Proof. unfold keeps_cache_ok. intros w1 w2 w3 H1 H2. auto. Qed.
#[local] Instance same_store_but_refl i k : Reflexive (same_store_but i k).
Proof. intros w j k' _. reflexivity. Qed.
#[local] Instance same_store_but_trans i k : Transitive (same_store_but i k).
Proof.
  unfold same_store_but. intros w1 w2 w3 H1 H2 j k' Hne.
  rewrite H2 by done. by apply H1.
Qed.

Lemma same_cache_keeps (w w' : world) : same_cache w w' → keeps_cache_ok w w'.
Proof. intros [Hc Hn] Hok. unfold cache_ok. rewrite Hc, Hn. exact Hok. Qed.

Lemma same_store_same_but (i : Z) (k : string) (w w' : world) :
  same_store w w' → same_store_but i k w w'.
Proof. intros H j k' _. by rewrite H. Qed.

(** The five commands do not touch the cache. *)
Lemma commands_same_cache (h : Redis) (k v : string) (ex : option Z) :
  respects same_cache (exists_ net_at h k) ∧
  respects same_cache (set_ net_at h k v ex) ∧
  respects same_cache (get_ net_at h k) ∧
  respects same_cache (ttl_ net_at h k) ∧
  respects same_cache (delete_ net_at h k).
Proof.
  assert (Hw : ∀ f, respects same_cache (with_store f)) by (by intros f w r w' [= <- <-]).
  assert (Hg : respects same_cache get_store) by (by intros w r w' [= <- <-]).
  split_and!; apply respects_send; try apply _; try done; intros _.
  - apply respects_bind; try apply _; [done|]. intros s. apply respects_ret; apply _.
  - destruct ex as [t|]; [destruct (expire_time_ok t)|];
      try (apply respects_raise; apply _);
      (apply respects_bind; try apply _; [apply Hw|]; intros; apply respects_ret; apply _).
  - apply respects_bind; try apply _; [done|]. intros s. apply respects_ret; apply _.
  - apply respects_bind; try apply _; [done|]. intros s. apply respects_ret; apply _.
  - apply respects_bind; try apply _; [done|]. intros s.
    destruct (s !! (db h, k)); [|apply respects_ret; apply _].
    apply respects_bind; try apply _; [apply Hw|]. intros; apply respects_ret; apply _.
Qed.

(** EXISTS, GET and TTL do not write. *)
Lemma reads_same_store (h : Redis) (k : string) :
  respects same_store (exists_ net_at h k) ∧
  respects same_store (get_ net_at h k) ∧
  respects same_store (ttl_ net_at h k).
Proof.
  assert (Hg : respects same_store get_store) by (by intros w r w' [= <- <-]).
  split_and!; apply respects_send; try apply _; try done; intros _;
    (apply respects_bind; try apply _; [done|]; intros s; apply respects_ret; apply _).
Qed.

(** SET and DEL write under their own key only. *)
Lemma writes_same_store_but (h : Redis) (k v : string) (ex : option Z) :
  respects (same_store_but (db h) k) (set_ net_at h k v ex) ∧
  respects (same_store_but (db h) k) (delete_ net_at h k).
Proof.
  assert (Hg : respects (same_store_but (db h) k) get_store)
    by (by intros w r w' [= <- <-]).
  assert (Hi : ∀ e, respects (same_store_but (db h) k)
                      (with_store (<[(db h, k) := e]>))).
  { intros e w r w' [= <- <-] j k' Hne. simpl. by apply lookup_insert_ne. }
  assert (Hd : respects (same_store_but (db h) k) (with_store (delete (db h, k)))).
  { intros w r w' [= <- <-] j k' Hne. simpl. by apply lookup_delete_ne. }
  split; apply respects_send; try apply _; try done; intros _.
  - destruct ex as [t|]; [destruct (expire_time_ok t)|];
      try (apply respects_raise; apply _);
      (apply respects_bind; try apply _; [apply Hi|]; intros; apply respects_ret; apply _).
  - apply respects_bind; try apply _; [done|]. intros s.
    destruct (s !! (db h, k)); [|apply respects_ret; apply _].
    apply respects_bind; try apply _; [apply Hd|]. intros; apply respects_ret; apply _.
Qed.

Lemma get_redis_connection_respects (i : Z) (n : nat) (max_dbs : Z) :
  respects keeps_cache_ok (get_redis_connection net_at i n max_dbs) ∧
  respects same_store (get_redis_connection net_at i n max_dbs) ∧
  respects (within n) (get_redis_connection net_at i n max_dbs).
Proof.
  split_and!; intros w r w' H;
    apply get_redis_connection_frame in H as (Hst & Hcl & Hok & _); done.
Qed.

(** Solve [respects R m] for a preorder [R] by following the structure of
    [m]; the leaves are looked up in the hypotheses. *)
Ltac footprint :=
  repeat first
    [ assumption
    | typeclasses eauto
    | match goal with
      | |- ∀ _, respects _ _ => intro
      | H : ∀ j, respects _ (get_redis_connection _ j _ _)
        |- respects _ (get_redis_connection _ _ _ _) => apply H
      | H : ∀ h k, respects _ (exists_ _ h k) |- respects _ (exists_ _ _ _) => apply H
      | H : ∀ h k, respects _ (get_ _ h k) |- respects _ (get_ _ _ _) => apply H
      | H : ∀ h k, respects _ (ttl_ _ h k) |- respects _ (ttl_ _ _ _) => apply H
      | H : ∀ h k, respects _ (delete_ _ h k) |- respects _ (delete_ _ _ _) => apply H
      | H : ∀ h k v ex, respects _ (set_ _ h k v ex) |- respects _ (set_ _ _ _ _ _) => apply H
      | |- respects _ (ret _) => apply respects_ret
      | |- respects _ (raise _) => apply respects_raise
      | |- respects _ (try_except _ any_Exception internal_error) =>
          apply respects_try_internal
      | |- respects _ (bind _ _) => apply respects_bind
      | |- respects _ (method None _) => cbn [method]
      | |- respects _ (method (Some _) _) => cbn [method]
      | |- respects _ (method ?r _) => is_var r; destruct r; cbn [method]
      | |- respects _ (if ?b then _ else _) => destruct b
      | |- respects _ (let _ := _ in _) => cbv zeta
      end ].

(** X7. Whatever the network does and however they end, the five handlers
    keep the invariant of the connection cache. *)
Theorem handlers_keep_cache_ok (data : KeyValueInput) (key : string) (i : Z) :
  respects keeps_cache_ok (create_key net_at data) ∧
  respects keeps_cache_ok (update_key net_at data) ∧
  respects keeps_cache_ok (get_key net_at key i) ∧
  respects keeps_cache_ok (delete_key net_at key i) ∧
  respects keeps_cache_ok (get_ttl net_at key i).
Proof.
  assert (Hacq : ∀ j, respects keeps_cache_ok (get_redis_connection net_at j 3 15))
    by (intros j; apply get_redis_connection_respects).
  assert (Hcmd : ∀ h k v ex,
            respects keeps_cache_ok (exists_ net_at h k) ∧
            respects keeps_cache_ok (set_ net_at h k v ex) ∧
            respects keeps_cache_ok (get_ net_at h k) ∧
            respects keeps_cache_ok (ttl_ net_at h k) ∧
            respects keeps_cache_ok (delete_ net_at h k)).
  { intros h k v ex.
    destruct (commands_same_cache h k v ex) as (H1 & H2 & H3 & H4 & H5).
    split_and!; intros w r w' H; apply same_cache_keeps;
      [by eapply H1 | by eapply H2 | by eapply H3 | by eapply H4 | by eapply H5]. }
  assert (Hex : ∀ h k, respects keeps_cache_ok (exists_ net_at h k))
    by (intros h k; apply (Hcmd h k "" None)).
  assert (Hset : ∀ h k v ex, respects keeps_cache_ok (set_ net_at h k v ex))
    by (intros h k v ex; apply (Hcmd h k v ex)).
  assert (Hget : ∀ h k, respects keeps_cache_ok (get_ net_at h k))
    by (intros h k; apply (Hcmd h k "" None)).
  assert (Httl : ∀ h k, respects keeps_cache_ok (ttl_ net_at h k))
    by (intros h k; apply (Hcmd h k "" None)).
  assert (Hdel : ∀ h k, respects keeps_cache_ok (delete_ net_at h k))
    by (intros h k; apply (Hcmd h k "" None)).
  clear Hcmd.
  unfold create_key, update_key, get_key, delete_key, get_ttl.
  split_and!; footprint.
Qed.

(** X8. [get_key] and [get_ttl] never write: whatever the network does and
    however they end, the server stores what it stored before. *)
Theorem read_handlers_never_write (key : string) (i : Z) :
  respects same_store (get_key net_at key i) ∧
  respects same_store (get_ttl net_at key i).
Proof.
  assert (Hacq : ∀ j, respects same_store (get_redis_connection net_at j 3 15))
    by (intros j; apply get_redis_connection_respects).
  assert (Hex : ∀ h k, respects same_store (exists_ net_at h k))
    by (intros h k; apply reads_same_store).
  assert (Hget : ∀ h k, respects same_store (get_ net_at h k))
    by (intros h k; apply reads_same_store).
  assert (Httl : ∀ h k, respects same_store (ttl_ net_at h k))
    by (intros h k; apply reads_same_store).
  unfold get_key, get_ttl. split; footprint.
Qed.

(** After the connection has been obtained for index [i], commands on the
    returned object go to database [i]. *)
Lemma after_acquire {A} (i : Z) (k : string) (f : option Redis → M A)
    (w w' : world) (r : result A) :
  (∀ h, db h = i → respects (same_store_but i k) (f (Some h))) →
  respects (same_store_but i k) (f None) →
  cache_ok w →
  try_except (bind (get_redis_connection net_at i 3 15) f)
    any_Exception internal_error w = (r, w') →
  same_store_but i k w w'.
Proof.
  intros Hsome Hnone Hok H.
  assert (Hin : ∃ r0, bind (get_redis_connection net_at i 3 15) f w = (r0, w')).
  { revert H. unfold try_except.
    destruct (bind _ f w) as [[a|e] w1]; intros [= <- <-]; eauto. }
  destruct Hin as [r0 Hin].
  apply bind_cases in Hin as [(o & w1 & Hacq & Hf)|(e & Hacq & _)].
  - transitivity w1.
    + apply same_store_same_but. by eapply get_redis_connection_respects.
    + destruct o as [h|]; [|by eapply Hnone].
      eapply Hsome; [|done].
      by destruct (returned_object_is_cached net_at _ _ _ _ _ _ Hok Hacq) as (_ & ? & _).
  - apply same_store_same_but. by eapply get_redis_connection_respects.
Qed.

(** X9. Whatever the network does and however they end, [create_key],
    [update_key] and [delete_key] change at most the entry of the requested
    key in the requested database: every other key of every database is
    stored as before. *)
Theorem write_handlers_touch_one_key (data : KeyValueInput) (key : string) (i : Z)
    (w : world) :
  cache_ok w →
  (∀ r w', create_key net_at data w = (r, w') →
           same_store_but (in_db_index data) (in_key data) w w') ∧
  (∀ r w', update_key net_at data w = (r, w') →
           same_store_but (in_db_index data) (in_key data) w w') ∧
  (∀ r w', delete_key net_at key i w = (r, w') → same_store_but i key w w').
Proof.
  intros Hok.
  assert (Hex : ∀ j k', ∀ h k, respects (same_store_but j k') (exists_ net_at h k)).
  { intros j k' h k w0 r w' H. apply same_store_same_but.
    destruct (reads_same_store h k) as (He & _ & _). by eapply He. }
  assert (Hset : ∀ h k, ∀ k0 v ex, k0 = k →
            respects (same_store_but (db h) k) (set_ net_at h k0 v ex)).
  { intros h k k0 v ex ->. by destruct (writes_same_store_but h k v ex). }
  assert (Hdel : ∀ h k, respects (same_store_but (db h) k) (delete_ net_at h k)).
  { intros h k. by destruct (writes_same_store_but h k "" None). }
  split_and!; intros r w' H; eapply after_acquire in H; try done.
  - intros h <-. pose proof (Hex (db h) (in_key data)) as Hex'.
    cbn [method]. footprint; by apply Hset.
  - pose proof (Hex (in_db_index data) (in_key data)) as Hex'. footprint.
  - intros h <-. pose proof (Hex (db h) (in_key data)) as Hex'.
    cbn [method]. footprint; by apply Hset.
  - pose proof (Hex (in_db_index data) (in_key data)) as Hex'. footprint.
  - intros h <-. pose proof (Hex (db h) key) as Hex'.
    pose proof (Hdel h key) as Hdel'.
    cbn [method]. footprint.
  - pose proof (Hex i key) as Hex'. footprint.
Qed.

Lemma within_ret {A} (k : nat) (a : A) : respects (within k) (ret a).
Proof. intros w r w' [= <- <-]. unfold within. lia. Qed.

Lemma within_raise {A} (k : nat) (e : exn) : respects (within k) (raise (A := A) e).
Proof. intros w r w' [= <- <-]. unfold within. lia. Qed.

Lemma within_bind {A B} (k1 k2 : nat) (m : M A) (f : A → M B) :
  respects (within k1) m → (∀ a, respects (within k2) (f a)) →
  respects (within (k1 + k2)) (bind m f).
Proof.
  intros Hm Hf w r w' H. apply bind_cases in H as [(a & w1 & H1 & H2)|(e & H1 & _)].
  - apply Hm in H1. apply Hf in H2. unfold within in *. lia.
  - apply Hm in H1. unfold within in *. lia.
Qed.

Lemma within_try_internal {A} (k : nat) (m : M A) :
  respects (within k) m → respects (within k) (try_except m any_Exception internal_error).
Proof.
  intros Hm w r w'. unfold try_except.
  destruct (m w) as [[a|e] w1] eqn:H; intros [= <- <-]; by eapply Hm.
Qed.

(** Each command is one round trip, served or not. *)
Lemma commands_within_one (h : Redis) (k v : string) (ex : option Z) :
  respects (within 1) (exists_ net_at h k) ∧
  respects (within 1) (set_ net_at h k v ex) ∧
  respects (within 1) (get_ net_at h k) ∧
  respects (within 1) (ttl_ net_at h k) ∧
  respects (within 1) (delete_ net_at h k).
Proof.
  assert (Hr : ∀ c, respects (within 1) (roundtrip net_at h c)).
  { intros c w r w' [= <- <-]. unfold within. simpl. lia. }
  assert (Hw : ∀ f, respects (within 0) (with_store f)).
  { intros f w r w' [= <- <-]. unfold within. simpl. lia. }
  assert (Hg : respects (within 0) get_store).
  { intros w r w' [= <- <-]. unfold within. lia. }
  assert (Hsend : ∀ A c (f : bool → M A),
            (∀ b, respects (within 0) (f b)) → respects (within 1) (send net_at h c f)).
  { intros A c f Hf. apply (within_bind 1 0); [apply Hr|].
    intros []; try apply Hf; apply within_raise. }
  split_and!; apply Hsend; intros _.
  - apply (within_bind 0 0); [done|]. intros s. apply within_ret.
  - destruct ex as [t|]; [destruct (expire_time_ok t)|]; try apply within_raise;
      (apply (within_bind 0 0); [apply Hw|]; intros; apply within_ret).
  - apply (within_bind 0 0); [done|]. intros s. apply within_ret.
  - apply (within_bind 0 0); [done|]. intros s. apply within_ret.
  - apply (within_bind 0 0); [done|]. intros s.
    destruct (s !! (db h, k)); [|apply within_ret].
    apply (within_bind 0 0); [apply Hw|]. intros; apply within_ret.
Qed.

Lemma method_within {A} (k : nat) (r : option Redis) (f : Redis → M A) :
  (∀ h, respects (within k) (f h)) → respects (within k) (method r f).
Proof. intros Hf. destruct r as [h|]; [apply Hf | apply within_raise]. Qed.

(** X10. No handler keeps the server busy: whatever the network does,
    [create_key], [update_key] and [delete_key] make at most 5 round trips
    (3 PINGs, EXISTS and the write), [get_key] at most 6 and [get_ttl] at
    most 4. *)
Theorem handlers_round_trips_bounded (data : KeyValueInput) (key : string) (i : Z) :
  respects (within 5) (create_key net_at data) ∧
  respects (within 5) (update_key net_at data) ∧
  respects (within 6) (get_key net_at key i) ∧
  respects (within 5) (delete_key net_at key i) ∧
  respects (within 4) (get_ttl net_at key i).
Proof.
  assert (Hacq : ∀ j, respects (within 3) (get_redis_connection net_at j 3 15))
    by (intros j; apply get_redis_connection_respects).
  assert (Hex : ∀ r k, respects (within 1) (method r (λ h, exists_ net_at h k))).
  { intros r k. apply method_within. intros h. apply (commands_within_one h k "" None). }
  assert (Hset : ∀ r k v ex, respects (within 1) (method r (λ h, set_ net_at h k v ex))).
  { intros r k v ex. apply method_within. intros h. apply (commands_within_one h k v ex). }
  assert (Hwrite : ∀ data r,
            respects (within 1)
              (if truthy_opt (in_ttl data)
               then method r (λ h, set_ net_at h (in_key data) (in_value data) (in_ttl data))
               else method r (λ h, set_ net_at h (in_key data) (in_value data) None))).
  { intros d r. destruct (truthy_opt (in_ttl d)); apply Hset. }
  split_and!; apply within_try_internal.
  - apply (within_bind 3 2); [apply Hacq|]. intros r.
    apply (within_bind 1 1); [apply Hex|]. intros found.
    destruct (truthy found); [apply within_raise|].
    apply (within_bind 1 0); [apply Hwrite|]. intros _. apply within_ret.
  - apply (within_bind 3 2); [apply Hacq|]. intros r.
    apply (within_bind 1 1); [apply Hex|]. intros found.
    destruct (negb (truthy found)); [apply within_raise|].
    apply (within_bind 1 0); [apply Hwrite|]. intros _. apply within_ret.
  - apply (within_bind 3 3); [apply Hacq|]. intros r.
    apply (within_bind 1 2); [apply Hex|]. intros found.
    destruct (negb (truthy found)); [apply within_raise|].
    apply (within_bind 1 1).
    { apply method_within. intros h. apply (commands_within_one h key "" None). }
    intros value. apply (within_bind 1 0).
    { apply method_within. intros h. apply (commands_within_one h key "" None). }
    intros ttl. apply within_ret.
  - apply (within_bind 3 2); [apply Hacq|]. intros r.
    apply (within_bind 1 1); [apply Hex|]. intros found.
    destruct (negb (truthy found)); [apply within_raise|].
    apply (within_bind 1 0).
    { apply method_within. intros h. apply (commands_within_one h key "" None). }
    intros _. apply within_ret.
  - apply (within_bind 3 1); [apply Hacq|]. intros r.
    apply (within_bind 1 0).
    { apply method_within. intros h. apply (commands_within_one h key "" None). }
    intros ttl. destruct (ttl =? -2); [apply within_raise | apply within_ret].
Qed.

End Footprints.

(** * The handlers when the server answers *)

Section Served.

Variable net_at : nat → net.


Lemma serving_later (w w' : world) :
  serving net_at w → (clock w ≤ clock w')%nat → serving net_at w'.
Proof. intros Hs Hle t Ht. apply Hs. lia. Qed.

Lemma acquire_served (i : Z) (w : world) :
  cache_ok w → 0 ≤ i ≤ 15 → serving net_at w →
  ∃ h w1, get_redis_connection net_at i 3 15 w = (Return (Some h), w1) ∧
          db h = i ∧ store w1 = store w ∧ cache_ok w1 ∧
          (clock w ≤ clock w1)%nat.
Proof.
  intros Hok Hi Hs.
  destruct (get_redis_connection_served net_at i w Hok Hi) as
    (h & w1 & Hacq & Hdb & Hst & Hcl); [apply Hs; lia|].
  exists h, w1. split_and!; try done; [|lia].
  apply get_redis_connection_frame in Hacq as (_ & _ & Hk & _). by apply Hk.
Qed.


Lemma get_served (h : Redis) (k : string) (w : world) :
  served (net_at (clock w)) = true →
  get_ net_at h k w =
  (Return (e_value <$> store w !! (db h, k)), sent h (GET k) (net_at (clock w)) w).
Proof.
  intros Hs. unfold get_, send, bind, roundtrip.
  fold (sent h (GET k) (net_at (clock w)) w).
  destruct (net_at (clock w)); try discriminate; reflexivity.
Qed.

Lemma ttl_served (h : Redis) (k : string) (w : world) :
  served (net_at (clock w)) = true →
  ttl_ net_at h k w =
  (Return (match store w !! (db h, k) with
           | None => -2
           | Some e => match e_ttl e with None => -1 | Some t => Z.of_nat t end
           end),
   sent h (TTL k) (net_at (clock w)) w).
Proof.
  intros Hs. unfold ttl_, send, bind, roundtrip.
  fold (sent h (TTL k) (net_at (clock w)) w).
  destruct (net_at (clock w)); try discriminate; reflexivity.
Qed.

Lemma delete_served (h : Redis) (k : string) (w : world) :
  served (net_at (clock w)) = true →
  is_Some (store w !! (db h, k)) →
  ∃ w', delete_ net_at h k w = (Return 1, w') ∧
        store w' = delete (db h, k) (store w) ∧
        same_cache w w' ∧ clock w' = S (clock w).
Proof.
  intros Hs [e He]. unfold delete_, send, bind, roundtrip, get_store.
  destruct (net_at (clock w)); try discriminate;
    cbn [store]; rewrite He;
    eexists; split_and!; try reflexivity; done.
Qed.


(** [get_key] on a key that exists. *)
Lemma get_key_served (key : string) (i : Z) (e : entry) (w : world) :
  cache_ok w → 0 ≤ i ≤ 15 →
  store w !! (i, key) = Some e →
  serving net_at w →
  ∃ w',
    get_key net_at key i w =
      (Return {| out_key := key; out_value := Some (e_value e);
                 out_ttl := Z.of_nat <$> e_ttl e; out_db_index := i;
                 out_message := "Key retrieved successfully" |}, w') ∧
    store w' = store w.
Proof.
  intros Hok Hi He Hs.
  destruct (acquire_served i w Hok Hi Hs) as (h & w1 & Hacq & <- & Hst & Hok1 & Hcl).
  eexists. split.
  - unfold get_key, try_except, bind. rewrite Hacq. cbv beta iota.
    cbn [method]. rewrite exists_served by (apply Hs; lia).
    rewrite Hst, He. cbn [truthy Z.eqb negb].
    rewrite get_served by (apply Hs; simpl; lia).
    cbn [store sent]. rewrite Hst, He.
    rewrite ttl_served by (apply Hs; simpl; lia).
    cbn [store sent]. rewrite Hst, He. cbn [fmap option_fmap option_map].
    destruct (e_ttl e) as [n|]; cbn [fmap option_fmap option_map].
    + replace (Z.of_nat n =? -1) with false by (symmetry; apply Z.eqb_neq; lia).
      reflexivity.
    + reflexivity.
  - simpl. exact Hst.
Qed.

(** A handler asked for a key that does not exist, after EXISTS. *)
Lemma missing_key_404 (key : string) (i : Z) (w : world) :
  cache_ok w → 0 ≤ i ≤ 15 →
  store w !! (i, key) = None →
  serving net_at w →
  let e := HTTPException 500 (Str (HTTPException 404 (Text "Key not found"))) in
  (∀ value ttl, ∃ w', update_key net_at (mkInput key value i ttl) w = (Raise e, w') ∧
                      store w' = store w) ∧
  (∃ w', get_key net_at key i w = (Raise e, w') ∧ store w' = store w) ∧
  (∃ w', delete_key net_at key i w = (Raise e, w') ∧ store w' = store w) ∧
  (∃ w', get_ttl net_at key i w = (Raise e, w') ∧ store w' = store w).
Proof.
  intros Hok Hi Hfree Hs e.
  destruct (acquire_served i w Hok Hi Hs) as (h & w1 & Hacq & <- & Hst & Hok1 & Hcl).
  split_and!; [intros value ttl|..]; eexists; (split; [|shelve]);
    unfold update_key, get_key, delete_key, get_ttl, try_except, bind;
    cbn [in_key in_value in_db_index in_ttl]; rewrite Hacq; cbv beta iota;
    cbn [method];
    rewrite ?exists_served, ?ttl_served by (apply Hs; lia);
    rewrite Hst, Hfree; reflexivity.
  Unshelve. all: simpl; exact Hst.
Qed.

Lemma delete_key_served (key : string) (i : Z) (w : world) :
  cache_ok w → 0 ≤ i ≤ 15 →
  is_Some (store w !! (i, key)) →
  serving net_at w →
  ∃ w',
    delete_key net_at key i w =
      (Return [("message", "Key deleted successfully"); ("key", key)], w') ∧
    store w' = delete (i, key) (store w) ∧
    cache_ok w' ∧ (clock w ≤ clock w')%nat.
Proof.
  intros Hok Hi [e He] Hs.
  destruct (acquire_served i w Hok Hi Hs) as (h & w1 & Hacq & <- & Hst & Hok1 & Hcl).
  destruct (delete_served h key (sent h (EXISTS key) (net_at (clock w1)) w1))
    as (w' & Hdel & Hst' & [Hc Hn] & Hcl'); [apply Hs; simpl; lia | |].
  { cbn [store sent]. rewrite Hst, He. eauto. }
  cbn [store sent redis_connections next_obj clock] in Hst', Hc, Hn, Hcl'.
  exists w'. split_and!.
  - unfold delete_key, try_except, bind. rewrite Hacq. cbv beta iota.
    cbn [method]. rewrite exists_served by (apply Hs; lia).
    rewrite Hst, He. cbn [truthy Z.eqb negb]. rewrite Hdel. reflexivity.
  - by rewrite Hst', Hst.
  - unfold cache_ok. rewrite Hc, Hn. exact Hok1.
  - lia.
Qed.



(** X13. [get_key] on a key that is stored, with the server answering,
    returns its value and its remaining seconds, [None] standing for a key
    without expiry, and leaves the store as it was. *)
Theorem get_key_answers_stored_entry (key : string) (i : Z) (e : entry) (w : world) :
  cache_ok w → 0 ≤ i ≤ 15 →
  store w !! (i, key) = Some e →
  serving net_at w →
  ∃ w',
    get_key net_at key i w =
      (Return {| out_key := key; out_value := Some (e_value e);
                 out_ttl := Z.of_nat <$> e_ttl e; out_db_index := i;
                 out_message := "Key retrieved successfully" |}, w') ∧
    store w' = store w.
Proof. apply get_key_served. Qed.


(** X15. [delete_key] on a key that is stored, with the server answering,
    returns the confirmation and removes that key and no other. *)
Theorem delete_key_removes_entry (key : string) (i : Z) (w : world) :
  cache_ok w → 0 ≤ i ≤ 15 →
  is_Some (store w !! (i, key)) →
  serving net_at w →
  ∃ w',
    delete_key net_at key i w =
      (Return [("message", "Key deleted successfully"); ("key", key)], w') ∧
    store w' !! (i, key) = None ∧
    (∀ j k, (j, k) ≠ (i, key) → store w' !! (j, k) = store w !! (j, k)).
Proof.
  intros Hok Hi He Hs.
  destruct (delete_key_served key i w Hok Hi He Hs) as (w' & H & Hst & _).
  exists w'. split_and!; [done | | ].
  - rewrite Hst. apply lookup_delete_eq.
  - intros j k Hne. rewrite Hst. by apply lookup_delete_ne.
Qed.

(** X16. Delete then get: after a successful [delete_key], [get_key] on the
    same key, with the server still answering, fails with status 500, the
    detail being the text of the 404 exception raised inside the handler. *)
Theorem delete_then_get_fails (key : string) (i : Z) (w : world) :
  cache_ok w → 0 ≤ i ≤ 15 →
  is_Some (store w !! (i, key)) →
  serving net_at w →
  ∃ w1 w2 o,
    delete_key net_at key i w = (Return o, w1) ∧
    get_key net_at key i w1 =
      (Raise (HTTPException 500 (Str (HTTPException 404 (Text "Key not found")))), w2).
Proof.
  intros Hok Hi He Hs.
  destruct (delete_key_served key i w Hok Hi He Hs) as (w1 & H & Hst & Hok1 & Hcl).
  destruct (missing_key_404 key i w1) as (_ & (w2 & Hget & _) & _); try done.
  { rewrite Hst. apply lookup_delete_eq. }
  { by eapply serving_later. }
  eauto.
Qed.

(** X17. [create_key] never overwrites: on a key that is stored, with the
    server answering, it fails with status 500, the detail being the text
    of the 400 exception raised inside the handler, and the store is as it
    was. *)
Theorem create_key_never_overwrites (data : KeyValueInput) (w : world) :
  cache_ok w → 0 ≤ in_db_index data ≤ 15 →
  is_Some (store w !! (in_db_index data, in_key data)) →
  serving net_at w →
  ∃ w',
    create_key net_at data w =
      (Raise (HTTPException 500 (Str (HTTPException 400 (Text "Key already exists")))),
       w') ∧
    store w' = store w.
Proof.
  destruct data as [key value i ttl]. cbn [in_key in_value in_db_index in_ttl].
  intros Hok Hi [e He] Hs.
  destruct (acquire_served i w Hok Hi Hs) as (h & w1 & Hacq & <- & Hst & Hok1 & Hcl).
  eexists. split.
  - unfold create_key, try_except, bind.
    cbn [in_key in_value in_db_index in_ttl]. rewrite Hacq. cbv beta iota.
    cbn [method]. rewrite exists_served by (apply Hs; lia).
    rewrite Hst, He. reflexivity.
  - simpl. exact Hst.
Qed.

(** X18. On a key that is not stored, with the server answering,
    [update_key], [get_key], [delete_key] and [get_ttl] all fail with
    status 500, the detail being the text of the 404 exception raised inside
    the handler, and none of them creates the key or changes the store. *)
Theorem missing_key_changes_nothing (key : string) (i : Z) (w : world) :
  cache_ok w → 0 ≤ i ≤ 15 →
  store w !! (i, key) = None →
  serving net_at w →
  let e := HTTPException 500 (Str (HTTPException 404 (Text "Key not found"))) in
  (∀ value ttl, ∃ w', update_key net_at (mkInput key value i ttl) w = (Raise e, w') ∧
                      store w' = store w) ∧
  (∃ w', get_key net_at key i w = (Raise e, w') ∧ store w' = store w) ∧
  (∃ w', delete_key net_at key i w = (Raise e, w') ∧ store w' = store w) ∧
  (∃ w', get_ttl net_at key i w = (Raise e, w') ∧ store w' = store w).
Proof. apply missing_key_404. Qed.



End Served.

(** * The credential store and the middlewares *)

Section Admission.

Context {L : Type}.
Variable RateLimiter : Z → Z → Request → ST L unit.
Variable ADMIN_API_KEY : string.
Variable net_at : nat → net.

(** X19. [add_apikey] with a header that is not the administrator key fails
    with status 403 before anything else: the table, the limiter and the
    Redis side are as before. *)
Theorem add_apikey_needs_admin_key (api_key : string) (description : option string)
    (x_api_key : string) (a : app L) :
  x_api_key ≠ ADMIN_API_KEY →
  add_apikey ADMIN_API_KEY api_key description x_api_key a =
    (Raise (HTTPException 403 (Text "Unauthorized")), a).
Proof.
  intros Hne. unfold add_apikey.
  apply String.eqb_neq in Hne. by rewrite Hne.
Qed.

(** X20. Insert then look up: [add_apikey] with the administrator key and a
    key that is not in the table returns the confirmation; afterwards
    [validate_api_key_dependency] lets the new key through, as well as every
    key it let through before. *)
Theorem add_apikey_then_validate (api_key : string) (description : option string)
    (a : app L) :
  api_key ∉ (api_keys a).*1 →
  ∃ a',
    add_apikey ADMIN_API_KEY api_key description ADMIN_API_KEY a =
      (Return [("message", "API Key added successfully")], a') ∧
    validate_api_key_dependency api_key a' = (Return tt, a') ∧
    (∀ k, validate_api_key_dependency k a = (Return tt, a) →
          validate_api_key_dependency k a' = (Return tt, a')) ∧
    limiter a' = limiter a ∧ backend a' = backend a.
Proof.
  intros Hnew. eexists. split_and!.
  - unfold add_apikey. rewrite String.eqb_refl. cbn [negb].
    unfold try_except, bind, add_api_key.
    rewrite bool_decide_eq_false_2 by done. reflexivity.
  - unfold validate_api_key_dependency, validate_api_key, bind. cbn [api_keys].
    rewrite bool_decide_eq_true_2; [done|].
    rewrite fmap_app. apply elem_of_app. right. cbn. apply list_elem_of_here.
  - intros k. unfold validate_api_key_dependency, validate_api_key, bind.
    cbn [api_keys]. destruct (bool_decide (k ∈ (api_keys a).*1)) eqn:Hk; [|discriminate].
    intros _. apply bool_decide_eq_true_1 in Hk.
    rewrite bool_decide_eq_true_2; [done|].
    rewrite fmap_app. apply elem_of_app. by left.
  - reflexivity.
  - reflexivity.
Qed.

(** X21. [add_apikey] with the administrator key and a key that is already
    in the table fails with status 400 and leaves the table as it was. *)
Theorem add_apikey_duplicate (api_key : string) (description : option string)
    (a : app L) :
  api_key ∈ (api_keys a).*1 →
  add_apikey ADMIN_API_KEY api_key description ADMIN_API_KEY a =
    (Raise (HTTPException 400 (Text "API Key already exists")), a).
Proof.
  intros Hin. unfold add_apikey. rewrite String.eqb_refl. cbn [negb].
  unfold try_except, bind, add_api_key.
  by rewrite bool_decide_eq_true_2 by done.
Qed.

(** X22. The table of API keys never holds a key twice and never loses
    one: whatever its arguments and however it ends, [add_apikey] keeps the
    keys distinct and keeps every key that was there. *)
Theorem add_apikey_keeps_keys_unique (api_key : string) (description : option string)
    (x_api_key : string) (a a' : app L) (r : result (list (string * string))) :
  NoDup (api_keys a).*1 →
  add_apikey ADMIN_API_KEY api_key description x_api_key a = (r, a') →
  NoDup (api_keys a').*1 ∧ (∀ k, k ∈ (api_keys a).*1 → k ∈ (api_keys a').*1).
Proof.
  intros Hnd. unfold add_apikey.
  destruct (negb (String.eqb x_api_key ADMIN_API_KEY)).
  { intros [= <- <-]. done. }
  unfold try_except, bind, add_api_key.
  destruct (bool_decide (api_key ∈ (api_keys a).*1)) eqn:Hk.
  - intros [= <- <-]. done.
  - intros [= <- <-]. cbn [api_keys]. apply bool_decide_eq_false_1 in Hk.
    rewrite fmap_app. split.
    + apply NoDup_app. split_and!; [done | | apply NoDup_singleton].
      intros k Hin Hk'. cbn in Hk'. apply list_elem_of_singleton in Hk'. by subst.
    + intros k Hin. apply elem_of_app. by left.
Qed.

(** X23. [prometheus_middleware] passes on what the rest of the chain
    answers and records it once, under the method, the path and the status
    of the answer; when the rest of the chain raises, the exception goes
    through and nothing is recorded. *)
Theorem prometheus_middleware_counts_once (request : Request)
    (call_next : Request → ST (app L) Response) (a a1 : app L) :
  (∀ response, call_next request a = (Return response, a1) →
     ∃ a', prometheus_middleware request call_next a = (Return response, a') ∧
           request_count a' =
             (method_of request, path request, pretty (status_code_of response))
             :: request_count a1 ∧
           api_keys a' = api_keys a1 ∧ limiter a' = limiter a1 ∧
           backend a' = backend a1) ∧
  (∀ e, call_next request a = (Raise e, a1) →
     prometheus_middleware request call_next a = (Raise e, a1)).
Proof.
  split.
  - intros response H. eexists. unfold prometheus_middleware, bind. rewrite H.
    split; [reflexivity|]. done.
  - intros e H. unfold prometheus_middleware, bind. by rewrite H.
Qed.

Lemma dependencies_valid_key (request : Request) (a : app L) :
  x_api_key request ∈ (api_keys a).*1 →
  dependencies RateLimiter request a = on_limiter (RateLimiter 10 5 request) a.
Proof.
  intros Hk. unfold dependencies, validate_api_key_dependency, validate_api_key, bind.
  by rewrite bool_decide_eq_true_2 by done.
Qed.

(** X24. A request with a valid API key that the rate limiter dependency
    refuses, whatever limiter it is, is answered with the status of the
    exception the limiter raised and never reaches the handler: the Redis
    side and the table are as before. *)
Theorem refused_by_limiter_never_reaches_handler (request : Request) (a : app L)
    (status : Z) (d : detail) (l' : L) :
  guarded (op request) = true →
  x_api_key request ∈ (api_keys a).*1 →
  RateLimiter 10 5 request (limiter a) = (Raise (HTTPException status d), l') →
  ∃ a',
    application RateLimiter ADMIN_API_KEY net_at request a =
      (Return (mkResponse status (Detail d)), a') ∧
    limiter a' = l' ∧
    backend a' = backend a ∧
    api_keys a' = api_keys a.
Proof.
  intros Hg Hk Hl. unfold application.
  rewrite rate_limit_middleware_transparent.
  pose proof (dependencies_valid_key request a Hk) as Hd.
  unfold on_limiter in Hd. rewrite Hl in Hd.
  assert (Hr : ∃ a1, router RateLimiter ADMIN_API_KEY net_at request a =
               (Return (mkResponse status (Detail d)), a1) ∧
               limiter a1 = l' ∧ backend a1 = backend a ∧ api_keys a1 = api_keys a).
  { eexists. unfold router, endpoint.
    destruct (op request); try discriminate; unfold bind; rewrite Hd;
      (split; [reflexivity | done]). }
  destruct Hr as (a1 & Hr & H1 & H2 & H3).
  unfold prometheus_middleware, bind. rewrite Hr.
  eexists. split; [reflexivity|]. done.
Qed.

(** X25. A request for [/metrics] is answered whatever its API key, with
    the redirect (307) to [/metrics/] of the mount, and neither the limiter
    dependency nor a handler runs: the limiter, the Redis side and the
    table are as before. *)
Theorem metrics_bypasses_gates (request : Request) (a : app L) :
  op request = Metrics →
  ∃ a',
    application RateLimiter ADMIN_API_KEY net_at request a =
      (Return (mkResponse 307 (Redirect "/metrics/")), a') ∧
    limiter a' = limiter a ∧
    backend a' = backend a ∧
    api_keys a' = api_keys a.
Proof.
  intros Hop. unfold application. rewrite rate_limit_middleware_transparent.
  unfold prometheus_middleware, bind, router, endpoint. rewrite Hop.
  eexists. split; [reflexivity|]. done.
Qed.

End Admission.

(** * An index outside 0..15 *)

Section IndexRange.

Context {L : Type}.
Variable RateLimiter : Z → Z → Request → ST L unit.
Variable ADMIN_API_KEY : string.
Variable net_at : nat → net.






End IndexRange.

Lemma append_cancel (p a b : string) : p +:+ a = p +:+ b → a = b.
Proof.
  induction p as [|c p IH]; [done|]. cbn. intros [= H]. by apply IH.
Qed.

(** X26. The window of [rate_limit_middleware] starts at a multiple of 60
    that is at most [now] and more than [now - 60], and the global key names
    the window: two requests get the same global key exactly when they fall
    into the same window, and the same client key when moreover they come
    from the same client. *)
Theorem rate_limit_window (r1 r2 : Request) :
  window_start (rate_limit_variables r1) ≤ now r1 < window_start (rate_limit_variables r1) + 60 ∧
  window_start (rate_limit_variables r1) `mod` 60 = 0 ∧
  (global_key (rate_limit_variables r1) = global_key (rate_limit_variables r2) ↔
   now r1 `div` 60 = now r2 `div` 60) ∧
  (client_host r1 = client_host r2 → now r1 `div` 60 = now r2 `div` 60 →
   ip_key (rate_limit_variables r1) = ip_key (rate_limit_variables r2)).
Proof.
  assert (Hw : ∀ r, window_start (rate_limit_variables r) = 60 * (now r `div` 60)).
  { intros r. cbn. pose proof (Z.div_mod (now r) 60). lia. }
  split; [|split; [|split]].
  - rewrite Hw. pose proof (Z.mod_pos_bound (now r1) 60).
    pose proof (Z.div_mod (now r1) 60). lia.
  - rewrite Hw. rewrite Z.mul_comm. by apply Z.mod_mul.
  - assert (Hg : ∀ r, global_key (rate_limit_variables r) =
                      "rate_limit:global:" +:+ pretty (window_start (rate_limit_variables r))).
    { intros r. reflexivity. }
    rewrite !Hg, !Hw. split.
    + intros H. apply append_cancel in H. apply (inj pretty) in H. lia.
    + intros H. by rewrite H.
  - intros Hc Hn.
    assert (Hi : ∀ r, ip_key (rate_limit_variables r) =
                      "rate_limit" +:+ ":ip:" +:+ client_host r +:+ ":"
                      +:+ pretty (window_start (rate_limit_variables r))).
    { intros r. reflexivity. }
    rewrite !Hi, !Hw, Hc, Hn. reflexivity.
Qed.

(** * Instances *)

Lemma serving_reachable (w : world) : serving reachable w.
Proof. intros t _. reflexivity. Qed.

Lemma get_redis_connection_touches_only_its_index_witness :
  get_redis_connection garbled 0 3 15 two_cached =
    (Return (Some (mkRedis 2 0)), installed 0 (probed (mkRedis 0 0) NoPong two_cached)) ∧
  store (installed 0 (probed (mkRedis 0 0) NoPong two_cached)) = store two_cached ∧
  (∀ j, j ≠ 0 →
     redis_connections (installed 0 (probed (mkRedis 0 0) NoPong two_cached)) !! j =
     redis_connections two_cached !! j) ∧
  (∀ e, Return (Some (mkRedis 2 0)) = Raise e →
     redis_connections (installed 0 (probed (mkRedis 0 0) NoPong two_cached)) =
     redis_connections two_cached).
Proof.
  split; [vm_compute; reflexivity|].
  apply (get_redis_connection_touches_only_its_index garbled 0 3 15 two_cached).
  vm_compute. reflexivity.
Defined.

Lemma get_redis_connection_none_iff_no_attempt_witness :
  (-1 ≤ 0 ∧ 0 ≤ 0 ≤ 15 ∧ warm_world = warm_world) ∧
  get_redis_connection_int reachable 0 (-1) 15 warm_world = (Return None, warm_world).
Proof.
  assert (H : -1 ≤ 0 ∧ 0 ≤ 0 ≤ 15 ∧ warm_world = warm_world)
    by (split_and!; [lia | lia | lia | reflexivity]).
  split; [exact H|].
  exact (proj2 (get_redis_connection_none_iff_no_attempt reachable 0 (-1) 15
                  warm_world warm_world) H).
Defined.

Lemma outage_transient (n : nat) (t : nat) : (t < n)%nat → transient (outage n t) = true.
Proof.
  intros Ht. unfold outage. by rewrite (proj2 (Nat.ltb_lt t n) Ht).
Qed.


Lemma get_redis_connection_recovers_within_bound_witness :
  0 ≤ 0 ≤ 15 ∧ (2 < 3)%nat ∧
  redis_connections warm_world !! 0 = Some (mkRedis 0 0) ∧
  (∀ t, (t < 2)%nat → transient (outage 2 (clock warm_world + t)) = true) ∧
  outage 2 (clock warm_world + 2) = Pong ∧
  ∃ w', get_redis_connection (outage 2) 0 3 15 warm_world =
          (Return (Some (mkRedis 0 0)), w') ∧
        clock w' = (clock warm_world + 3)%nat ∧
        redis_connections w' = redis_connections warm_world ∧
        store w' = store warm_world.
Proof.
  assert (Hi : 0 ≤ 0 ≤ 15) by lia.
  assert (Hj : (2 < 3)%nat) by lia.
  assert (Hc : redis_connections warm_world !! 0 = Some (mkRedis 0 0))
    by (vm_compute; reflexivity).
  assert (Ht : ∀ t, (t < 2)%nat → transient (outage 2 (clock warm_world + t)) = true)
    by (intros t H; by apply outage_transient).
  assert (Hp : outage 2 (clock warm_world + 2) = Pong) by reflexivity.
  split; [exact Hi|]. split; [exact Hj|]. split; [exact Hc|].
  split; [exact Ht|]. split; [exact Hp|].
  exact (get_redis_connection_recovers_within_bound (outage 2) 0 3 15 2 warm_world
           (mkRedis 0 0) Hi Hj Hc Ht Hp).
Defined.

Lemma get_redis_connection_gives_up_witness :
  0 ≤ 0 ≤ 15 ∧ (0 < 3)%nat ∧
  redis_connections warm_world !! 0 = Some (mkRedis 0 0) ∧
  (∀ t, (t < 3)%nat → transient (outage 3 (clock warm_world + t)) = true) ∧
  ∃ cause w',
    get_redis_connection (outage 3) 0 3 15 warm_world =
      (Raise (Exception ("Failed to connect to Redis on db_index " +:+ pretty 0
                         +:+ " after " +:+ pretty (Z.of_nat 3) +:+ " attempts.")
                        cause), w') ∧
    connection_or_timeout cause = true ∧
    clock w' = (clock warm_world + 3)%nat ∧
    redis_connections w' !! 0 = Some (mkRedis 0 0).
Proof.
  assert (Hi : 0 ≤ 0 ≤ 15) by lia.
  assert (Hn : (0 < 3)%nat) by lia.
  assert (Hc : redis_connections warm_world !! 0 = Some (mkRedis 0 0))
    by (vm_compute; reflexivity).
  assert (Ht : ∀ t, (t < 3)%nat → transient (outage 3 (clock warm_world + t)) = true)
    by (intros t H; by apply outage_transient).
  split; [exact Hi|]. split; [exact Hn|]. split; [exact Hc|]. split; [exact Ht|].
  exact (get_redis_connection_gives_up (outage 3) 0 3 15 warm_world
           (mkRedis 0 0) Hi Hn Hc Ht).
Defined.

Lemma rejected_ping_is_not_retried_witness :
  0 ≤ 0 ≤ 15 ∧ (0 < 3)%nat ∧
  redis_connections warm_world !! 0 = Some (mkRedis 0 0) ∧
  rejecting (clock warm_world) = Rejected ∧
  get_redis_connection rejecting 0 3 15 warm_world =
    (Raise ResponseError, probed (mkRedis 0 0) Rejected warm_world).
Proof.
  assert (Hi : 0 ≤ 0 ≤ 15) by lia.
  assert (Hn : (0 < 3)%nat) by lia.
  assert (Hc : redis_connections warm_world !! 0 = Some (mkRedis 0 0))
    by (vm_compute; reflexivity).
  split; [exact Hi|]. split; [exact Hn|]. split; [exact Hc|]. split; [reflexivity|].
  exact (rejected_ping_is_not_retried rejecting 0 3 15 warm_world
           (mkRedis 0 0) Hi Hn Hc eq_refl).
Defined.

Lemma falsy_ping_replaces_object_witness :
  0 ≤ 0 ≤ 15 ∧ (0 < 3)%nat ∧
  redis_connections warm_world !! 0 = Some (mkRedis 0 0) ∧
  garbled (clock warm_world) = NoPong ∧
  ∃ w', get_redis_connection garbled 0 3 15 warm_world =
          (Return (Some (mkRedis (next_obj warm_world) 0)), w') ∧
        redis_connections w' !! 0 = Some (mkRedis (next_obj warm_world) 0) ∧
        (cache_ok warm_world → mkRedis (next_obj warm_world) 0 ≠ mkRedis 0 0) ∧
        trace w' = Call (mkRedis 0 0) PING NoPong :: trace warm_world.
Proof.
  assert (Hi : 0 ≤ 0 ≤ 15) by lia.
  assert (Hn : (0 < 3)%nat) by lia.
  assert (Hc : redis_connections warm_world !! 0 = Some (mkRedis 0 0))
    by (vm_compute; reflexivity).
  split; [exact Hi|]. split; [exact Hn|]. split; [exact Hc|]. split; [reflexivity|].
  exact (falsy_ping_replaces_object garbled 0 3 15 warm_world
           (mkRedis 0 0) Hi Hn Hc eq_refl).
Defined.

Lemma handlers_keep_cache_ok_witness :
  cache_ok expiring_world ∧
  cache_ok (snd (create_key reachable (mkInput "k" "v" 3 (Some 60)) expiring_world)).
Proof.
  split; [exact expiring_world_cache_ok|].
  apply (proj1 (handlers_keep_cache_ok reachable (mkInput "k" "v" 3 (Some 60)) "k" 3)
           expiring_world
           (fst (create_key reachable (mkInput "k" "v" 3 (Some 60)) expiring_world))).
  - apply surjective_pairing.
  - exact expiring_world_cache_ok.
Defined.

Lemma read_handlers_never_write_witness :
  store (snd (get_key (outage 1) "a" 0 warm_world)) = store warm_world.
Proof.
  apply (proj1 (read_handlers_never_write (outage 1) "a" 0) warm_world
           (fst (get_key (outage 1) "a" 0 warm_world))).
  apply surjective_pairing.
Defined.

Lemma write_handlers_touch_one_key_witness :
  cache_ok expiring_world ∧
  update_key reachable (mkInput "b" "2" 0 None) expiring_world =
    (Raise (HTTPException 500 (Str (HTTPException 404 (Text "Key not found")))),
     snd (update_key reachable (mkInput "b" "2" 0 None) expiring_world)) ∧
  same_store_but 0 "b" expiring_world
    (snd (update_key reachable (mkInput "b" "2" 0 None) expiring_world)).
Proof.
  assert (H : update_key reachable (mkInput "b" "2" 0 None) expiring_world =
    (Raise (HTTPException 500 (Str (HTTPException 404 (Text "Key not found")))),
     snd (update_key reachable (mkInput "b" "2" 0 None) expiring_world)))
    by (vm_compute; reflexivity).
  split; [exact expiring_world_cache_ok|]. split; [exact H|].
  exact (proj1 (proj2 (write_handlers_touch_one_key reachable (mkInput "b" "2" 0 None)
                         "b" 0 expiring_world expiring_world_cache_ok)) _ _ H).
Defined.

Lemma handlers_round_trips_bounded_witness :
  within 5 warm_world (snd (create_key (outage 2) (mkInput "k" "v" 0 None) warm_world)).
Proof.
  apply (proj1 (handlers_round_trips_bounded (outage 2) (mkInput "k" "v" 0 None) "k" 0)
           warm_world
           (fst (create_key (outage 2) (mkInput "k" "v" 0 None) warm_world))).
  apply surjective_pairing.
Defined.




Lemma get_key_answers_stored_entry_witness :
  cache_ok expiring_world ∧ 0 ≤ 0 ≤ 15 ∧
  store expiring_world !! (0, "a") = Some (mkEntry "1" (Some 30%nat)) ∧
  serving reachable expiring_world ∧
  ∃ w',
    get_key reachable "a" 0 expiring_world =
      (Return {| out_key := "a"; out_value := Some (e_value (mkEntry "1" (Some 30%nat)));
                 out_ttl := Z.of_nat <$> e_ttl (mkEntry "1" (Some 30%nat));
                 out_db_index := 0;
                 out_message := "Key retrieved successfully" |}, w') ∧
    store w' = store expiring_world.
Proof.
  assert (Hi : 0 ≤ 0 ≤ 15) by lia.
  assert (He : store expiring_world !! (0, "a") = Some (mkEntry "1" (Some 30%nat)))
    by (vm_compute; reflexivity).
  split_and!; [exact expiring_world_cache_ok | lia | lia | exact He
              | apply serving_reachable | ].
  exact (get_key_answers_stored_entry reachable "a" 0 _ expiring_world
           expiring_world_cache_ok Hi He (serving_reachable _)).
Defined.

Lemma expiring_world_has_a : is_Some (store expiring_world !! (0, "a")).
Proof. exists (mkEntry "1" (Some 30%nat)). vm_compute. reflexivity. Qed.


Lemma delete_key_removes_entry_witness :
  cache_ok expiring_world ∧ 0 ≤ 0 ≤ 15 ∧
  is_Some (store expiring_world !! (0, "a")) ∧
  serving reachable expiring_world ∧
  ∃ w',
    delete_key reachable "a" 0 expiring_world =
      (Return [("message", "Key deleted successfully"); ("key", "a")], w') ∧
    store w' !! (0, "a") = None ∧
    (∀ j k, (j, k) ≠ (0, "a") → store w' !! (j, k) = store expiring_world !! (j, k)).
Proof.
  assert (Hi : 0 ≤ 0 ≤ 15) by lia.
  split_and!; [exact expiring_world_cache_ok | lia | lia | exact expiring_world_has_a
              | apply serving_reachable | ].
  exact (delete_key_removes_entry reachable "a" 0 expiring_world
           expiring_world_cache_ok Hi expiring_world_has_a (serving_reachable _)).
Defined.

Lemma delete_then_get_fails_witness :
  cache_ok expiring_world ∧ 0 ≤ 0 ≤ 15 ∧
  is_Some (store expiring_world !! (0, "a")) ∧
  serving reachable expiring_world ∧
  ∃ w1 w2 o,
    delete_key reachable "a" 0 expiring_world = (Return o, w1) ∧
    get_key reachable "a" 0 w1 =
      (Raise (HTTPException 500 (Str (HTTPException 404 (Text "Key not found")))), w2).
Proof.
  assert (Hi : 0 ≤ 0 ≤ 15) by lia.
  split_and!; [exact expiring_world_cache_ok | lia | lia | exact expiring_world_has_a
              | apply serving_reachable | ].
  exact (delete_then_get_fails reachable "a" 0 expiring_world
           expiring_world_cache_ok Hi expiring_world_has_a (serving_reachable _)).
Defined.

Lemma create_key_never_overwrites_witness :
  cache_ok expiring_world ∧ 0 ≤ 0 ≤ 15 ∧
  is_Some (store expiring_world !! (0, "a")) ∧
  serving reachable expiring_world ∧
  ∃ w',
    create_key reachable (mkInput "a" "2" 0 None) expiring_world =
      (Raise (HTTPException 500 (Str (HTTPException 400 (Text "Key already exists")))),
       w') ∧
    store w' = store expiring_world.
Proof.
  assert (Hi : 0 ≤ 0 ≤ 15) by lia.
  split_and!; [exact expiring_world_cache_ok | lia | lia | exact expiring_world_has_a
              | apply serving_reachable | ].
  exact (create_key_never_overwrites reachable (mkInput "a" "2" 0 None) expiring_world
           expiring_world_cache_ok Hi expiring_world_has_a (serving_reachable _)).
Defined.

Lemma missing_key_changes_nothing_witness :
  cache_ok expiring_world ∧ 0 ≤ 0 ≤ 15 ∧
  store expiring_world !! (0, "b") = None ∧
  serving reachable expiring_world ∧
  let e := HTTPException 500 (Str (HTTPException 404 (Text "Key not found"))) in
  (∀ value ttl, ∃ w', update_key reachable (mkInput "b" value 0 ttl) expiring_world =
                        (Raise e, w') ∧
                      store w' = store expiring_world) ∧
  (∃ w', get_key reachable "b" 0 expiring_world = (Raise e, w') ∧
         store w' = store expiring_world) ∧
  (∃ w', delete_key reachable "b" 0 expiring_world = (Raise e, w') ∧
         store w' = store expiring_world) ∧
  (∃ w', get_ttl reachable "b" 0 expiring_world = (Raise e, w') ∧
         store w' = store expiring_world).
Proof.
  assert (Hi : 0 ≤ 0 ≤ 15) by lia.
  assert (Hf : store expiring_world !! (0, "b") = None) by (vm_compute; reflexivity).
  split_and!; [exact expiring_world_cache_ok | lia | lia | exact Hf
              | apply serving_reachable | ].
  exact (missing_key_changes_nothing reachable "b" 0 expiring_world
           expiring_world_cache_ok Hi Hf (serving_reachable _)).
Defined.

Lemma handlers_raise_only_500_witness :
  create_key reachable (mkInput "a" "2" 0 None) expiring_world =
    (Raise (HTTPException 500 (Str (HTTPException 400 (Text "Key already exists")))),
     snd (create_key reachable (mkInput "a" "2" 0 None) expiring_world)) ∧
  ∃ e', HTTPException 500 (Str (HTTPException 400 (Text "Key already exists"))) =
        HTTPException 500 (Str e').
Proof.
  assert (H : create_key reachable (mkInput "a" "2" 0 None) expiring_world =
    (Raise (HTTPException 500 (Str (HTTPException 400 (Text "Key already exists")))),
     snd (create_key reachable (mkInput "a" "2" 0 None) expiring_world)))
    by (vm_compute; reflexivity).
  split; [exact H|].
  exact (handlers_raise_only_500 reachable (mkInput "a" "2" 0 None) "a" 0
           expiring_world _ _ (or_introl H)).
Defined.

Lemma get_ttl_answer_witness :
  cache_ok expiring_world ∧
  get_ttl reachable "a" 0 expiring_world =
    (Return {| ttl_key := "a"; ttl_ttl := Int 30; ttl_db_index := 0 |},
     snd (get_ttl reachable "a" 0 expiring_world)) ∧
  ttl_key {| ttl_key := "a"; ttl_ttl := Int 30; ttl_db_index := 0 |} = "a" ∧
  ttl_db_index {| ttl_key := "a"; ttl_ttl := Int 30; ttl_db_index := 0 |} = 0 ∧
  ∃ e, store expiring_world !! (0, "a") = Some e ∧
       ttl_ttl {| ttl_key := "a"; ttl_ttl := Int 30; ttl_db_index := 0 |} =
         match e_ttl e with
         | None => Chars "No TTL set"
         | Some n => Int (Z.of_nat n)
         end.
Proof.
  assert (H : get_ttl reachable "a" 0 expiring_world =
    (Return {| ttl_key := "a"; ttl_ttl := Int 30; ttl_db_index := 0 |},
     snd (get_ttl reachable "a" 0 expiring_world))) by (vm_compute; reflexivity).
  split; [exact expiring_world_cache_ok|]. split; [exact H|].
  exact (get_ttl_answer reachable "a" 0 expiring_world _ _ expiring_world_cache_ok H).
Defined.

Lemma add_apikey_needs_admin_key_witness :
  "guess" ≠ "admin" ∧
  add_apikey "admin" "new" None "guess" sample_app =
    (Raise (HTTPException 403 (Text "Unauthorized")), sample_app).
Proof.
  assert (H : "guess" ≠ "admin") by discriminate.
  split; [exact H|].
  exact (add_apikey_needs_admin_key "admin" "new" None "guess" sample_app H).
Defined.

Lemma new_key_not_in_sample_app : "new" ∉ (api_keys sample_app).*1.
Proof. cbn. intros H. apply list_elem_of_singleton in H. discriminate. Qed.

Lemma secret_in_sample_app : "secret" ∈ (api_keys sample_app).*1.
Proof. cbn. apply list_elem_of_here. Qed.

Lemma add_apikey_then_validate_witness :
  ("new" ∉ (api_keys sample_app).*1) ∧
  ∃ a',
    add_apikey "admin" "new" (Some "ci") "admin" sample_app =
      (Return [("message", "API Key added successfully")], a') ∧
    validate_api_key_dependency "new" a' = (Return tt, a') ∧
    (∀ k, validate_api_key_dependency k sample_app = (Return tt, sample_app) →
          validate_api_key_dependency k a' = (Return tt, a')) ∧
    limiter a' = limiter sample_app ∧ backend a' = backend sample_app.
Proof.
  split; [exact new_key_not_in_sample_app|].
  exact (add_apikey_then_validate "admin" "new" (Some "ci") sample_app
           new_key_not_in_sample_app).
Defined.

Lemma add_apikey_duplicate_witness :
  ("secret" ∈ (api_keys sample_app).*1) ∧
  add_apikey "admin" "secret" None "admin" sample_app =
    (Raise (HTTPException 400 (Text "API Key already exists")), sample_app).
Proof.
  split; [exact secret_in_sample_app|].
  exact (add_apikey_duplicate "admin" "secret" None sample_app secret_in_sample_app).
Defined.

Lemma sample_app_keys_unique : NoDup (api_keys sample_app).*1.
Proof. cbn. apply NoDup_singleton. Qed.

Lemma add_apikey_keeps_keys_unique_witness :
  NoDup (api_keys sample_app).*1 ∧
  add_apikey "admin" "new" None "admin" sample_app =
    (Return [("message", "API Key added successfully")],
     snd (add_apikey "admin" "new" None "admin" sample_app)) ∧
  NoDup (api_keys (snd (add_apikey "admin" "new" None "admin" sample_app))).*1 ∧
  (∀ k, k ∈ (api_keys sample_app).*1 →
        k ∈ (api_keys (snd (add_apikey "admin" "new" None "admin" sample_app))).*1).
Proof.
  assert (H : add_apikey "admin" "new" None "admin" sample_app =
    (Return [("message", "API Key added successfully")],
     snd (add_apikey "admin" "new" None "admin" sample_app)))
    by (vm_compute; reflexivity).
  split; [exact sample_app_keys_unique|]. split; [exact H|].
  exact (add_apikey_keeps_keys_unique "admin" "new" None "admin" sample_app _ _
           sample_app_keys_unique H).
Defined.

Lemma prometheus_middleware_counts_once_witness :
  router fixed_window "admin" reachable (intruder_request (Get "a" 0)) sample_app =
    (Return (mkResponse 403 (Detail (Text "Invalid API Key"))), sample_app) ∧
  ∃ a',
    prometheus_middleware (intruder_request (Get "a" 0))
      (router fixed_window "admin" reachable) sample_app =
      (Return (mkResponse 403 (Detail (Text "Invalid API Key"))), a') ∧
    request_count a' =
      (method_of (intruder_request (Get "a" 0)), path (intruder_request (Get "a" 0)),
       pretty (status_code_of (mkResponse 403 (Detail (Text "Invalid API Key")))))
      :: request_count sample_app ∧
    api_keys a' = api_keys sample_app ∧ limiter a' = limiter sample_app ∧
    backend a' = backend sample_app.
Proof.
  assert (H : router fixed_window "admin" reachable (intruder_request (Get "a" 0))
                sample_app =
              (Return (mkResponse 403 (Detail (Text "Invalid API Key"))), sample_app))
    by (vm_compute; reflexivity).
  split; [exact H|].
  exact (proj1 (prometheus_middleware_counts_once (intruder_request (Get "a" 0))
                  (router fixed_window "admin" reachable) sample_app sample_app) _ H).
Defined.

Lemma refused_by_limiter_never_reaches_handler_witness :
  guarded (op (sample_request (Get "a" 0))) = true ∧
  (x_api_key (sample_request (Get "a" 0)) ∈ (api_keys exhausted_app).*1) ∧
  fixed_window 10 5 (sample_request (Get "a" 0)) (limiter exhausted_app) =
    (Raise (HTTPException 429 (Text "Too Many Requests")), limiter exhausted_app) ∧
  ∃ a',
    application fixed_window "admin" reachable (sample_request (Get "a" 0)) exhausted_app =
      (Return (mkResponse 429 (Detail (Text "Too Many Requests"))), a') ∧
    limiter a' = limiter exhausted_app ∧
    backend a' = backend exhausted_app ∧
    api_keys a' = api_keys exhausted_app.
Proof.
  assert (Hk : x_api_key (sample_request (Get "a" 0)) ∈ (api_keys exhausted_app).*1)
    by (cbn; apply list_elem_of_here).
  assert (Hl : fixed_window 10 5 (sample_request (Get "a" 0)) (limiter exhausted_app) =
    (Raise (HTTPException 429 (Text "Too Many Requests")), limiter exhausted_app))
    by (vm_compute; reflexivity).
  split; [reflexivity|]. split; [exact Hk|]. split; [exact Hl|].
  exact (refused_by_limiter_never_reaches_handler fixed_window "admin" reachable
           (sample_request (Get "a" 0)) exhausted_app 429 _ _ eq_refl Hk Hl).
Defined.

Lemma metrics_bypasses_gates_witness :
  op (intruder_request Metrics) = Metrics ∧
  ∃ a',
    application fixed_window "admin" reachable (intruder_request Metrics) exhausted_app =
      (Return (mkResponse 307 (Redirect "/metrics/")), a') ∧
    limiter a' = limiter exhausted_app ∧
    backend a' = backend exhausted_app ∧
    api_keys a' = api_keys exhausted_app.
Proof.
  split; [reflexivity|].
  exact (metrics_bypasses_gates fixed_window "admin" reachable
           (intruder_request Metrics) exhausted_app eq_refl).
Defined.


